(** * TB-Metrics-Visualizer: a shallow embedding of [main.py]

    The development follows the pipeline of the script: the smoothing
    engine ([smooth_values]), the series merger ([load_tb_data]) and the
    figure composer ([create_visualization]).

    Conventions of the embedding.
    - A Python [int] is a [Z]; a Python [float] and a numpy [float64]
      are binary64 numbers, the primitive [float] of Rocq, with the same
      round-to-nearest-even arithmetic.
    - A one-dimensional numpy array is a [list]; indexing is written out
      with its [IndexError].
    - A call that can raise returns a [py_result]; a loop that mutates
      an object threads the object through a fold.
    - A [dict] with string keys is a [gmap string _]. *)

From Stdlib Require Import ZArith Floats.PrimFloat Floats.FloatOps Floats.SpecFloat.
From stdpp Require Import base option list strings gmap sorting.

Set Default Proof Using "Type".
#[local] Set Warnings "-inexact-float".

(** * Exceptions and results *)

(** The exceptions the script can meet. Every constructor stands for a
    subclass of Python's [Exception]: these are the ones an
    [except Exception] clause catches. *)
Inductive exn : Type :=
  | ValueError (msg : string)
  | OverflowError (msg : string)
  | IndexError (msg : string)
  | ZeroDivisionError (msg : string)
  | OtherError (msg : string).

(** [str(e)] *)
Definition str_exn (e : exn) : string :=
  match e with
  | ValueError m | OverflowError m | IndexError m
  | ZeroDivisionError m | OtherError m => m
  end.

Inductive py_result (A : Type) : Type :=
  | Ok (a : A)
  | Raise (e : exn).
Arguments Ok {A} a.
Arguments Raise {A} e.

#[global] Instance py_ret : MRet py_result := @Ok.
#[global] Instance py_bind : MBind py_result := λ A B f m,
  match m with
  | Ok a => f a
  | Raise e => Raise e
  end.

(** [for x in xs: s = body(s, x)], left by the first exception. *)
Fixpoint for_each {A S : Type} (body : S → A → py_result S)
    (xs : list A) (s : S) : py_result S :=
  match xs with
  | [] => Ok s
  | x :: xs' => s' ← body s x; for_each body xs' s'
  end.

(** [a[i]] and [a[i] = x] on a one-dimensional array, [i] not negative. *)
Definition getitem {A : Type} (a : list A) (i : nat) : py_result A :=
  match a !! i with
  | Some x => Ok x
  | None => Raise (IndexError "index out of bounds")
  end.

Definition setitem {A : Type} (a : list A) (i : nat) (x : A) : py_result (list A) :=
  if decide (i < length a) then Ok (<[i:=x]> a)
  else Raise (IndexError "index out of bounds").

Arguments getitem : simpl never.
Arguments setitem : simpl never.

(** * Numbers *)

(** [float(n)] for an [int] [n]: the nearest binary64 number, ties to
    even; [OverflowError] when that is not finite. *)
Definition float_of_int (n : Z) : py_result float :=
  match binary_normalize prec emax n 0 false with
  | S754_infinity _ => Raise (OverflowError "int too large to convert to float")
  | sf => Ok (SF2Prim sf)
  end.

(** * numpy *)

(** [np.ones(n, dtype=float)]. numpy measures an array in signed 64-bit
    words: it refuses a negative length, a length that is no such word,
    and a length whose eight bytes a value do not fit one. Below that
    the memory of the machine decides, which is not modelled: the array
    exists here, and every statement that needs it to exist is about a
    window of a few values, or of no more values than a sequence that
    the machine already holds. *)
Definition np_ones (n : Z) : py_result (list float) :=
  if decide (n < 0)%Z then
    Raise (ValueError "negative dimensions are not allowed")
  else if decide (2 ^ 63 ≤ n)%Z then
    Raise (ValueError "Maximum allowed dimension exceeded")
  else if decide (2 ^ 60 ≤ n)%Z then
    Raise (ValueError "array is too big; `arr.size * arr.dtype.itemsize` is larger than the maximum possible size.")
  else Ok (replicate (Z.to_nat n) 1%float).

(** One sample of the full discrete convolution,
    [sum_j a[j] * v[m - j]], the products added by increasing [j].
    numpy adds the same products in an order of its own, so the last
    bits of a sample can differ from this sum: the statements about the
    moving average are about the number of samples, never their
    values. *)
Definition conv_at (a v : list float) (m : nat) : float :=
  foldl (λ acc j,
           match a !! j, (if decide (j ≤ m) then v !! (m - j) else None) with
           | Some x, Some y => (acc + x * y)%float
           | _, _ => acc
           end)
        0%float (seq 0 (length a)).

(** [np.convolve(a, v, mode="same")]. numpy refuses an empty operand,
    the first one first, then swaps the operands so that the first is
    the longer one, and returns the centred [max(len(a), len(v))]
    samples of the full convolution: sample [k] of the result is sample
    [k + (n2 - 1 - n2 // 2)] of the full one, [n2] the length of the
    shorter operand. *)
Definition np_convolve_same (a v : list float) : py_result (list float) :=
  if decide (length a = 0) then Raise (ValueError "a cannot be empty")
  else if decide (length v = 0) then Raise (ValueError "v cannot be empty")
  else
    let '(a, v) := if decide (length a < length v) then (v, a) else (a, v) in
    let n2 := length v in
    Ok ((λ k, conv_at a v (k + (n2 - 1 - n2 / 2))) <$> seq 0 (length a)).

(** * The smoothing engine *)

Section Smoothing.

(** What a freshly allocated array holds: [np.empty_like] does not
    initialise its cells. *)
Variable uninit : nat → float.

(** [np.empty_like(values, dtype=float)] *)
Definition np_empty_like (values : list float) : list float :=
  uninit <$> seq 0 (length values).

(** The body of the loop of [smooth_values]:
    [smoothed[i] = alpha * values[i] + (1.0 - alpha) * smoothed[i - 1]]. *)
Definition ema_body (alpha : float) (values smoothed : list float) (i : nat)
    : py_result (list float) :=
  vi ← getitem values i;
  prev ← getitem smoothed (i - 1);
  setitem smoothed i (alpha * vi + (1 - alpha) * prev)%float.

Definition smooth_values (values : list float) (method : string)
    (window : option Z) : py_result (list float) :=
  match window with
  | None => Ok values
  | Some w =>
    if decide (w ≤ 1)%Z then Ok values
    else if decide (method = "ma") then
      ones ← np_ones w;
      fw ← float_of_int w;
      let kernel := (λ x, x / fw)%float <$> ones in
      np_convolve_same values kernel
    else
      (* Exponential moving average (default) *)
      fw ← float_of_int w;
      let alpha := (2 / (fw + 1))%float in
      let smoothed := np_empty_like values in
      if decide (length values = 0) then Ok values
      else
        v0 ← getitem values 0;
        smoothed ← setitem smoothed 0 v0;
        for_each (ema_body alpha values) (seq 1 (length values - 1)) smoothed
  end.

End Smoothing.

(** ** The recurrence, as the specification words it

    [smoothed[0] = values[0]] and, for [i >= 1],
    [smoothed[i] = alpha * values[i] + (1 - alpha) * smoothed[i-1]]:
    a scan of the sequence that carries the previous output along. *)
Fixpoint ema_from (alpha prev : float) (vs : list float) : list float :=
  match vs with
  | [] => []
  | v :: vs' =>
    let s := (alpha * v + (1 - alpha) * prev)%float in
    s :: ema_from alpha s vs'
  end.

Definition ema_spec (alpha : float) (values : list float) : list float :=
  match values with
  | [] => []
  | v0 :: vs => v0 :: ema_from alpha v0 vs
  end.

(** The window is absent, or at most one: the guard of line 137. *)
Definition no_window (window : option Z) : Prop :=
  match window with
  | None => True
  | Some w => (w ≤ 1)%Z
  end.

#[global] Instance float_inhabited : Inhabited float := populate 0%float.


(** * Loops over a mutable object *)

(** [for x in xs: body(s, x)] where [body] mutates the object [s] and
    may raise: the loop ends at the first exception, and the object
    keeps what was done to it until then. *)
Fixpoint run_each {A S : Type} (body : S → A → S * option exn)
    (xs : list A) (s : S) : S * option exn :=
  match xs with
  | [] => (s, None)
  | x :: xs' =>
    match body s x with
    | (s', None) => run_each body xs' s'
    | (s', Some e) => (s', Some e)
    end
  end.

(** * Paths *)

(** A resolved path is absolute: it is modelled by its components below
    the root, so that [[]] is ["/"] and [["logs"; "run1"]] is
    ["/logs/run1"]. *)
Abbreviation PosixPath := (list string).

(** [p.parent]; the root is its own parent. *)
Definition parent (p : PosixPath) : PosixPath := removelast p.

(** [str(p)] for an absolute path. *)
Definition str_path (p : PosixPath) : string := "/" +:+ String.concat "/" p.

(** [str(p)] for a relative path; the empty one prints as a dot. *)
Definition str_relative (p : PosixPath) : string :=
  match p with
  | [] => "."
  | _ :: _ => String.concat "/" p
  end.

(** [p.relative_to(base)]: what is left of [p] below [base]; [None]
    stands for the [ValueError] raised when [p] is not below [base]. *)
Fixpoint relative_to (p base : PosixPath) {struct base} : option PosixPath :=
  match base, p with
  | [] , _ => Some p
  | b :: base', c :: p' => if decide (b = c) then relative_to p' base' else None
  | _ :: _, [] => None
  end.

(** * The series merger *)

(** One observation of a scalar, as the event reader returns it. *)
Record ScalarEvent : Type := {
  wall_time : float;
  step : Z;
  value : float
}.

(** One run's observations for one metric: the dictionary appended by
    [load_tb_data]. *)
Record SeriesRecord : Type := {
  steps : list Z;
  values : list float;
  walltimes : list float;
  run_name : string;
  file_path : string
}.

(** What the event reader yields for a file that it could open: the
    scalar tags, in the order of [ea.Tags()["scalars"]], each with what
    [ea.Scalars(tag)] returns or raises. *)
Abbreviation EventLog := (list (string * py_result (list ScalarEvent))).

(** The Metric Collection: metric name to the records of its runs. *)
Abbreviation MetricCollection := (gmap string (list SeriesRecord)).

(** [zip(a, b, c)] and its inverse, [zip] applied to the unpacked
    list of triples. *)
Definition zip3 {A B C : Type} (a : list A) (b : list B) (c : list C)
    : list (A * B * C) :=
  zip (zip a b) c.

Definition unzip3 {A B C : Type} (l : list (A * B * C))
    : list A * list B * list C :=
  ((λ t, t.1.1) <$> l, (λ t, t.1.2) <$> l, (λ t, t.2) <$> l).

(** [data[tag].append(rec)] on a [defaultdict(list)] *)
Definition append_record (data : MetricCollection) (tag : string)
    (rec : SeriesRecord) : MetricCollection :=
  <[tag := default [] (data !! tag) ++ [rec]]> data.

(** The body of the loop over the scalar tags of one file (lines 92 to
    116); [scalars] is what [ea.Scalars(tag)] does. *)
Definition load_tag (run_name tb_file : string) (max_step : option Z)
    (data : MetricCollection) (entry : string * py_result (list ScalarEvent))
    : MetricCollection * option exn :=
  let '(tag, scalars) := entry in
  match scalars with
  | Raise e => (data, Some e)
  | Ok [] => (data, None)
  | Ok events =>
    let steps := step <$> events in
    let values := value <$> events in
    let walltimes := wall_time <$> events in
    match max_step with
    | None =>
      (append_record data tag (Build_SeriesRecord steps values walltimes run_name tb_file), None)
    | Some max_step =>
      let filtered_data :=
        filter (λ t : Z * float * float, (t.1.1 ≤ max_step)%Z)
               (zip3 steps values walltimes) in
      match filtered_data with
      | [] => (data, None)
      | _ :: _ =>
        let '(steps, values, walltimes) := unzip3 filtered_data in
        (append_record data tag (Build_SeriesRecord steps values walltimes run_name tb_file), None)
      end
    end
  end.

(** The first tag of a log whose scalars cannot be read. *)
Fixpoint first_raise (scalar_tags : EventLog) : option exn :=
  match scalar_tags with
  | [] => None
  | (_, Raise e) :: _ => Some e
  | (_, Ok _) :: scalar_tags' => first_raise scalar_tags'
  end.

Section Loader.

(** The file system: [Path(p).resolve()]. *)
Variable resolve : string → PosixPath.

(** The event reader: [EventAccumulator(tb_file)], [Reload()] and
    [Tags()], which either raise or give the log of the file. *)
Variable read_events : string → py_result EventLog.

(** Lines 69 to 78: the first base directory the log directory is
    below gives the name; [None] when the loop ends without one. *)
Fixpoint relative_run_name (log_dir : PosixPath) (base_paths : list PosixPath)
    : option string :=
  match base_paths with
  | [] => None
  | base_path :: base_paths' =>
    match relative_to log_dir base_path with
    | Some rel_path => Some (str_relative rel_path)
    | None => relative_run_name log_dir base_paths'
    end
  end.

(** Lines 65 to 82. *)
Definition compute_run_name (base_paths : list PosixPath) (tb_file : string)
    : string :=
  let tb_file_path := resolve tb_file in
  let log_dir := parent tb_file_path in
  match relative_run_name log_dir base_paths with
  | Some run_name => run_name
  | None => str_path log_dir
  end.

(** The line printed by the [except] clause. *)
Definition failed_line (tb_file : string) (e : exn) : string :=
  "Failed to load file " +:+ tb_file +:+ ": " +:+ str_exn e.

(** The body of the loop over the files (lines 62 to 120), on the
    collection and the lines printed so far. *)
Definition load_file (base_paths : list PosixPath) (max_step : option Z)
    (st : MetricCollection * list string) (tb_file : string)
    : MetricCollection * list string :=
  let '(data, out) := st in
  let out := out ++ ["Loading: " +:+ tb_file] in
  let run_name := compute_run_name base_paths tb_file in
  match read_events tb_file with
  | Raise e => (data, out ++ [failed_line tb_file e])
  | Ok scalar_tags =>
    match run_each (load_tag run_name tb_file max_step) scalar_tags data with
    | (data, None) => (data, out)
    | (data, Some e) => (data, out ++ [failed_line tb_file e])
    end
  end.

(** The loop over the files, from any state. *)
Definition load_files (base_paths : list PosixPath) (max_step : option Z)
    (tb_files : list string) (st : MetricCollection * list string)
    : MetricCollection * list string :=
  foldl (load_file base_paths max_step) st tb_files.

(** [load_tb_data]: the collection it returns and the lines it
    prints. *)
Definition load_tb_data (tb_files base_directories : list string)
    (max_step : option Z) : MetricCollection * list string :=
  let base_paths := resolve <$> base_directories in
  load_files base_paths max_step tb_files (∅, []).

(** ** The run identifier, as the specification words it

    The parent directory relative to the first root directory that
    contains it, the absolute parent directory when none does. *)
Definition run_identifier (roots : list PosixPath) (tb_file : string) : string :=
  let dir := parent (resolve tb_file) in
  match list_find (λ root, root `prefix_of` dir) roots with
  | Some (_, root) => str_relative (drop (length root) dir)
  | None => str_path dir
  end.

(** The observations of a tag that the bound on the step keeps. *)
Definition within_bound (max_step : option Z) (events : list ScalarEvent)
    : list ScalarEvent :=
  match max_step with
  | None => events
  | Some max_step => filter (λ e, (step e ≤ max_step)%Z) events
  end.

(** [rec] is stored under [tag]. *)
Definition stored (data : MetricCollection) (tag : string) (rec : SeriesRecord)
    : Prop :=
  ∃ recs, data !! tag = Some recs ∧ rec ∈ recs.

(** Every list of [data] is the beginning of the list that [data']
    has under the same name. *)
Definition extends (data data' : MetricCollection) : Prop :=
  ∀ tag recs, data !! tag = Some recs →
    ∃ more, data' !! tag = Some (recs ++ more).

(** [rec] holds the observations that its file has for [tag], those
    within the bound, of which there is at least one, under the run
    name of the file. *)
Definition record_of_file (base_paths : list PosixPath) (max_step : option Z)
    (tag : string) (rec : SeriesRecord) : Prop :=
  ∃ scalar_tags events,
    read_events (file_path rec) = Ok scalar_tags ∧
    (tag, Ok events) ∈ scalar_tags ∧
    within_bound max_step events ≠ [] ∧
    steps rec = step <$> within_bound max_step events ∧
    values rec = value <$> within_bound max_step events ∧
    walltimes rec = wall_time <$> within_bound max_step events ∧
    run_name rec = compute_run_name base_paths (file_path rec).

(** The first exception met when reading a file, if any: at opening
    it, or at the first tag whose scalars cannot be read. *)
Definition read_error (tb_file : string) : option exn :=
  match read_events tb_file with
  | Raise e => Some e
  | Ok scalar_tags => first_raise scalar_tags
  end.

End Loader.

(** * The figure composer *)

(** The x values of a curve: the steps of the record, or hours of wall
    time. *)
Inductive XData : Type :=
  | Steps (s : list Z)
  | Hours (h : list float).

Definition x_len (x : XData) : nat :=
  match x with
  | Steps s => length s
  | Hours h => length h
  end.

(** One call of [ax.plot]: the arguments that [create_visualization]
    passes, which are also what the line it returns holds. *)
Record Line2D : Type := {
  xdata : XData;
  ydata : list float;
  label : string;
  color : string;
  alpha : float;
  linewidth : float
}.

(** The arguments of [create_visualization] that the drawing depends
    on; [output_path] and [show] matter after the drawing only. The two
    sizes of [figsize_per_plot] are floats, as [--width] and [--height]
    give them. *)
Record Options : Type := {
  figsize_per_plot : float * float;
  max_cols : Z;
  smooth_method : option string;
  smooth_window : option Z;
  show_raw_and_smooth : bool;
  x_axis : string
}.

(** What a rendering pass holds while it draws. *)
Record Canvas : Type := {
  (** how many colors [next(color_iter)] has given out *)
  color_iter : nat;
  (** the color of each run name met so far *)
  run_color_map : gmap string string;
  (** a history that the script does not keep: each run name with the
      color that lines 225 to 228 resolved for it, one entry for every
      record drawn, oldest first *)
  color_log : list (string * string);
  (** the cell [gs[row, col]] of each subplot added *)
  subplots : list (Z * Z);
  (** the lines drawn, each with the index of its subplot, oldest
      first *)
  lines : list (nat * Line2D)
}.

Definition blank_canvas : Canvas :=
  {| color_iter := 0; run_color_map := ∅; color_log := []; subplots := []; lines := [] |}.

(** How the drawing of [create_visualization] ends. *)
Inductive viz_outcome : Type :=
  (** the collection is empty: a message, and no figure *)
  | NothingToVisualize
  (** the figure is created and every curve is drawn: the figure goes
      on to its title and to [plt.savefig], which are not modelled *)
  | Saved (c : Canvas)
  (** an exception left the function, with the figure as it was *)
  | Raised (c : Canvas) (e : exn).

Definition canvas_of (o : viz_outcome) : Canvas :=
  match o with
  | NothingToVisualize => blank_canvas
  | Saved c | Raised c _ => c
  end.

(** What [plt.figure] asks of the size of a figure: the backend raises
    unless both sizes are finite and none is below zero. *)
Definition figure_size_ok (fig_width fig_height : float) : bool :=
  is_finite fig_width && is_finite fig_height
  && negb (fig_width <? 0)%float && negb (fig_height <? 0)%float.

(** Lines 186 to 189: the size of the figure, each size of a subplot
    times the integer number of columns or rows, and [plt.figure] on
    it. *)
Definition plt_figure (figsize_per_plot : float * float) (n_cols n_rows : Z)
    : py_result (float * float) :=
  cols ← float_of_int n_cols;
  let fig_width := (figsize_per_plot.1 * cols)%float in
  rows ← float_of_int n_rows;
  let fig_height := (figsize_per_plot.2 * rows)%float in
  if figure_size_ok fig_width fig_height then Ok (fig_width, fig_height)
  else Raise (ValueError "figure size must be positive finite").

(** [GridSpec(n_rows, n_cols, ...)] of line 190: the backend refuses a
    grid without a row or without a column. *)
Definition GridSpec (n_rows n_cols : Z) : option exn :=
  if decide (n_rows ≤ 0)%Z then
    Some (ValueError "Number of rows must be a positive integer")
  else if decide (n_cols ≤ 0)%Z then
    Some (ValueError "Number of columns must be a positive integer")
  else None.

(** The fallback palette of line 198. *)
Definition default_colors : list string :=
  ["#1f77b4"; "#ff7f0e"; "#2ca02c"; "#d62728"; "#9467bd";
   "#8c564b"; "#e377c2"; "#7f7f7f"; "#bcbd22"; "#17becf"].

(** Lines 193 to 198. [prop_cycle] is [plt.rcParams.get("axes.prop_cycle", None)],
    given by the lists that its [by_key()] holds. *)
Definition palette (prop_cycle : option (gmap string (list string))) : list string :=
  let colors :=
    match prop_cycle with
    | Some color_cycle => default [] (color_cycle !! "color")
    | None => []
    end in
  match colors with
  | [] => default_colors
  | _ :: _ => colors
  end.

(** The [n]-th value of [itertools.cycle(colors)]; [colors] is never
    empty, see [palette]. *)
Definition cycle_nth (colors : list string) (n : nat) : string :=
  colors !!! (n `mod` length colors).

(** Lines 225 to 228. *)
Definition resolve_color (colors : list string) (c : Canvas) (run_name : string)
    : string * Canvas :=
  match run_color_map c !! run_name with
  | Some run_color =>
    (run_color,
     {| color_iter := color_iter c;
        run_color_map := run_color_map c;
        color_log := color_log c ++ [(run_name, run_color)];
        subplots := subplots c; lines := lines c |})
  | None =>
    let run_color := cycle_nth colors (color_iter c) in
    (run_color,
     {| color_iter := S (color_iter c);
        run_color_map := <[run_name := run_color]> (run_color_map c);
        color_log := color_log c ++ [(run_name, run_color)];
        subplots := subplots c; lines := lines c |})
  end.

(** [ax.plot(x, y, ...)] on the subplot [idx]: the backend refuses
    sequences of different lengths. *)
Definition ax_plot (idx : nat) (c : Canvas) (line : Line2D) : Canvas * option exn :=
  if decide (x_len (xdata line) = length (ydata line)) then
    ({| color_iter := color_iter c; run_color_map := run_color_map c;
        color_log := color_log c; subplots := subplots c;
        lines := lines c ++ [(idx, line)] |}, None)
  else (c, Some (ValueError "x and y must have same first dimension")).

(** [fig.add_subplot(gs[row, col])] *)
Definition add_subplot (c : Canvas) (row col : Z) : Canvas :=
  {| color_iter := color_iter c; run_color_map := run_color_map c;
     color_log := color_log c; subplots := subplots c ++ [(row, col)];
     lines := lines c |}.

(** Lines 216 to 223. *)
Definition x_data_of (x_axis : string) (steps : list Z) (walltimes : list float)
    : XData :=
  if decide (x_axis = "walltime") then
    match walltimes with
    | w0 :: _ => Hours ((λ w, (w - w0) / 3600)%float <$> walltimes)
    | [] => Hours walltimes
    end
  else Steps steps.

(** The truth value of [smooth_method]: [None] and the empty string
    select no smoothing. *)
Definition selected (smooth_method : option string) : option string :=
  match smooth_method with
  | Some "" | None => None
  | Some method => Some method
  end.

(** The labels that [ax.legend()] lists for the subplot [idx]: the
    backend leaves out a line whose label is empty or starts with an
    underscore. *)
Definition in_legend (label : string) : bool :=
  negb (String.eqb label "") && negb (String.prefix "_" label).

Definition legend_labels (c : Canvas) (idx : nat) : list string :=
  omap (λ il : nat * Line2D,
          if decide (il.1 = idx) then
            if in_legend (label il.2) then Some (label il.2) else None
          else None)
       (lines c).

(** [sorted(data.items())]: by metric name, the names being distinct. *)
Definition item_le (a b : string * list SeriesRecord) : Prop :=
  String.leb a.1 b.1.

#[global] Instance item_le_dec : RelDecision item_le.
Proof. intros a b. unfold item_le. apply _. Defined.

Definition sorted_items (data : gmap string (list SeriesRecord))
    : list (string * list SeriesRecord) :=
  merge_sort item_le (map_to_list data).

Section Composer.

(** What a freshly allocated array holds, for [smooth_values]. *)
Variable uninit : nat → float.

(** The body of the loop over the runs of a metric (lines 210 to 254). *)
Definition draw_run (colors : list string) (opts : Options) (idx : nat)
    (c : Canvas) (run_data : SeriesRecord) : Canvas * option exn :=
  let steps := steps run_data in
  let values := values run_data in
  let walltimes := walltimes run_data in
  let run_name := run_name run_data in
  let x_data := x_data_of (x_axis opts) steps walltimes in
  let '(run_color, c) := resolve_color colors c run_name in
  match selected (smooth_method opts) with
  | Some method =>
    if show_raw_and_smooth opts then
      let raw_line :=
        {| xdata := x_data; ydata := values; label := "_nolegend_";
           color := run_color; alpha := 0.35; linewidth := 1.0 |} in
      match ax_plot idx c raw_line with
      | (c, Some e) => (c, Some e)
      | (c, None) =>
        match smooth_values uninit values method (smooth_window opts) with
        | Raise e => (c, Some e)
        | Ok smooth_values_arr =>
          ax_plot idx c
            {| xdata := x_data; ydata := smooth_values_arr; label := run_name;
               color := color raw_line; alpha := 0.9; linewidth := 1.6 |}
        end
      end
    else
      match smooth_values uninit values method (smooth_window opts) with
      | Raise e => (c, Some e)
      | Ok values =>
        ax_plot idx c
          {| xdata := x_data; ydata := values; label := run_name;
             color := run_color; alpha := 0.8; linewidth := 1.5 |}
      end
  | None =>
    ax_plot idx c
      {| xdata := x_data; ydata := values; label := run_name;
         color := run_color; alpha := 0.8; linewidth := 1.5 |}
  end.

(** The body of the loop over the metrics (lines 204 to 254); the
    title, the labels, the grid and the legend that follow change no
    line. *)
Definition draw_metric (colors : list string) (opts : Options) (n_cols : Z)
    (c : Canvas) (item : nat * (string * list SeriesRecord))
    : Canvas * option exn :=
  let '(idx, (metric_name, runs_data)) := item in
  let row := (Z.of_nat idx `div` n_cols)%Z in
  let col := (Z.of_nat idx `mod` n_cols)%Z in
  let c := add_subplot c row col in
  run_each (draw_run colors opts idx) runs_data c.

Definition create_visualization (prop_cycle : option (gmap string (list string)))
    (data : gmap string (list SeriesRecord)) (opts : Options) : viz_outcome :=
  if decide (size data = 0) then NothingToVisualize
  else
    let n_metrics := Z.of_nat (size data) in
    let n_cols := (n_metrics `min` max_cols opts)%Z in
    if decide (n_cols = 0)%Z then
      Raised blank_canvas (ZeroDivisionError "integer division or modulo by zero")
    else
      let n_rows := ((n_metrics + n_cols - 1) `div` n_cols)%Z in
      match plt_figure (figsize_per_plot opts) n_cols n_rows with
      | Raise e => Raised blank_canvas e
      | Ok _ =>
        match GridSpec n_rows n_cols with
        | Some e => Raised blank_canvas e
        | None =>
          let colors := palette prop_cycle in
          match run_each (draw_metric colors opts n_cols)
                         (imap pair (sorted_items data)) blank_canvas with
          | (c, None) => Saved c
          | (c, Some e) => Raised c e
          end
        end
      end.

End Composer.

(** The figure of a collection of [n_metrics] metrics is one that
    [plt.figure] accepts: the sizes of lines 186 and 187 are finite and
    not below zero. *)
Definition figure_accepted (opts : Options) (n_metrics : nat) : Prop :=
  let n_cols := (Z.of_nat n_metrics `min` max_cols opts)%Z in
  let n_rows := ((Z.of_nat n_metrics + n_cols - 1) `div` n_cols)%Z in
  ∃ figsize, plt_figure (figsize_per_plot opts) n_cols n_rows = Ok figsize.

(** The number of distinct names in a list. *)
Definition distinct (names : list string) : nat :=
  size (list_to_set names : gset string).

(** A line drawn for a run whose color is in the history: under the
    name of the run, or as the unlabelled raw curve. *)
Definition line_of_log (log : list (string * string)) (line : Line2D) : Prop :=
  (label line, color line) ∈ log
  ∨ (label line = "_nolegend_" ∧ ∃ run, (run, color line) ∈ log).

(** What holds of the colors of a canvas all along a rendering pass. *)
Record color_inv (colors : list string) (c : Canvas) : Prop := {
  inv_log_map : ∀ run col,
    (run, col) ∈ color_log c → run_color_map c !! run = Some col;
  inv_map_log : ∀ run,
    is_Some (run_color_map c !! run) → run ∈ (color_log c).*1;
  inv_iter : color_iter c = distinct (color_log c).*1;
  inv_first : ∀ i run col,
    color_log c !! i = Some (run, col) →
    run ∉ (take i (color_log c)).*1 →
    col = cycle_nth colors (distinct (take i (color_log c)).*1);
  inv_lines : ∀ idx line, (idx, line) ∈ lines c → line_of_log (color_log c) line
}.

(** The run names of the records in the order in which the loops of
    [create_visualization] reach them: metric by metric in the order of
    the names, and in the order of the list within a metric. *)
Definition runs_in_order (data : gmap string (list SeriesRecord)) : list string :=
  run_name <$> (sorted_items data ≫= snd).

(** * A small world for the examples

    A file system without symbolic links whose working directory is the
    root, and three event files. *)
Module Sample.

(** The components of a path between its slashes. *)
Fixpoint split_slash (s : string) : list string :=
  match s with
  | EmptyString => [EmptyString]
  | String ch s' =>
    if Ascii.eqb ch (Ascii.ascii_of_nat 47) then EmptyString :: split_slash s'
    else
      match split_slash s' with
      | [] => [String ch EmptyString]
      | x :: xs => String ch x :: xs
      end
  end.

(** [Path(p).resolve()] in that file system. *)
Definition resolve (p : string) : list string :=
  foldl (λ acc part,
           if decide (part = "" ∨ part = ".") then acc
           else if decide (part = "..") then removelast acc
           else acc ++ [part])
        [] (split_slash p).

(** An observation at [step], taken one minute after the one before. *)
Definition event (step : Z) (value : float) : ScalarEvent :=
  {| wall_time := (match float_of_int (100 + 60 * step) with Ok t => t | Raise _ => 0 end);
     step := step; value := value |}.

Definition run1 : string := "logs/run1/events.out.tfevents.1".
Definition run2 : string := "logs/run2/events.out.tfevents.2".
Definition run3 : string := "logs/run3/events.out.tfevents.3".

(** [run1] has two tags, the second with late steps only; [run2] cannot
    be opened; [run3] has one tag that can be read and one that
    cannot. *)
Definition read_events (tb_file : string)
    : py_result (list (string * py_result (list ScalarEvent))) :=
  if decide (tb_file = run1) then
    Ok [("loss", Ok [event 0 1; event 3 2; event 6 3; event 9 4]);
        ("eval", Ok [event 6 5; event 9 6])]
  else if decide (tb_file = run2) then
    Raise (OtherError "truncated record")
  else if decide (tb_file = run3) then
    Ok [("loss", Ok [event 0 8; event 1 4; event 2 2]);
        ("grad", Raise (OtherError "Key grad was not found"))]
  else Raise (OtherError "No such file").

(** What [load_tb_data] stores for [run1] under ["loss"] with the bound
    5 on the step. *)
Definition loss1 : SeriesRecord :=
  {| steps := [0; 3]%Z; values := [1; 2]%float; walltimes := [100; 280]%float;
     run_name := "run1"; file_path := run1 |}.

(** What it stores for [run3] under ["loss"]. *)
Definition loss3 : SeriesRecord :=
  {| steps := [0; 1; 2]%Z; values := [8; 4; 2]%float;
     walltimes := [100; 160; 220]%float;
     run_name := "run3"; file_path := run3 |}.

Definition show_both (method : string) (window : Z) : Options :=
  {| figsize_per_plot := (8, 4)%float;
     max_cols := 3; smooth_method := Some method; smooth_window := Some window;
     show_raw_and_smooth := true; x_axis := "step" |}.

End Sample.

From Stdlib Require Floats.FloatAxioms.

(** * More of the script *)

(** [data.get(tag, [])]: the records of a metric, none for a name that
    the collection does not have. *)
Definition records_of (data : gmap string (list SeriesRecord)) (tag : string)
    : list SeriesRecord :=
  default [] (data !! tag).

Section LoaderLines.

(** The event reader, as for [load_tb_data]. *)
Variable read_events : string → py_result (list (string * py_result (list ScalarEvent))).

(** What [load_tb_data] prints for one file: the line that announces
    it, and the line of the [except] clause when reading it raises. *)
Definition lines_of_file (tb_file : string) : list string :=
  ("Loading: " +:+ tb_file)
  :: match read_error read_events tb_file with
     | Some e => [failed_line tb_file e]
     | None => []
     end.

End LoaderLines.

(** * The run locator *)

(** The separator of paths. *)
Definition sep : Ascii.ascii := Ascii.ascii_of_nat 47.

(** [path.endswith("/")] *)
Fixpoint ends_with_sep (path : string) : bool :=
  match path with
  | EmptyString => false
  | String ch EmptyString => Ascii.eqb ch sep
  | String _ path' => ends_with_sep path'
  end.

(** [os.path.join(root, file)] *)
Definition os_path_join (root file : string) : string :=
  if String.prefix "/" file then file
  else if decide (root = "") then file
  else if ends_with_sep root then root +:+ file
  else root +:+ "/" +:+ file.

(** [file.startswith("events.out.tfevents")] *)
Definition is_event_file (file : string) : bool :=
  String.prefix "events.out.tfevents" file.

Section Locator.

(** The file system: [Path(directory).exists()], and the triples
    [(root, dirs, files)] of [os.walk(Path(directory))] in the order of
    the walk. *)
Variable path_exists : string → bool.
Variable os_walk : string → list (string * list string * list string).

(** The loop over the files of one directory of the walk (lines 37 to
    39). *)
Definition collect_files (root : string) (files : list string)
    (tb_files : list string) : list string :=
  foldl (λ tb_files file,
           if is_event_file file then tb_files ++ [os_path_join root file]
           else tb_files)
        tb_files files.

(** The body of the loop over the directories (lines 30 to 39), on the
    list of files and the lines printed. *)
Definition find_in_directory (st : list string * list string) (directory : string)
    : list string * list string :=
  let '(tb_files, out) := st in
  if path_exists directory then
    (foldl (λ tb_files (entry : string * list string * list string),
              let '(root, dirs, files) := entry in
              collect_files root files tb_files)
           tb_files (os_walk directory),
     out)
  else (tb_files, out ++ ["Warning: directory does not exist: " +:+ directory]).

(** [find_tb_files]: the list it returns and the lines it prints. *)
Definition find_tb_files (directories : list string) : list string * list string :=
  foldl find_in_directory ([], []) directories.

(** The event files below one directory, in the order of the walk. *)
Definition event_files_below (directory : string) : list string :=
  if path_exists directory then
    os_walk directory ≫= λ entry,
      os_path_join entry.1.1 <$> filter (λ file, is_event_file file) entry.2
  else [].

(** The warning for a directory that does not exist. *)
Definition warning_of (directory : string) : list string :=
  if path_exists directory then []
  else ["Warning: directory does not exist: " +:+ directory].

End Locator.

(** * What a rendering pass is to draw *)

(** A line as the figure shows it: its subplot, its label and its y
    values. *)
Definition curve_of_line (il : nat * Line2D) : nat * string * list float :=
  (il.1, label il.2, ydata il.2).

(** The cell of the grid of the subplot [idx] (lines 204 and 205). *)
Definition cell_of (n_cols : Z) (idx : nat) : Z * Z :=
  ((Z.of_nat idx `div` n_cols)%Z, (Z.of_nat idx `mod` n_cols)%Z).

Section Drawable.

Variable uninit : nat → float.

(** The smoothed values of a record, where [smooth_values] returns. *)
Definition smoothed_of (opts : Options) (method : string) (run_data : SeriesRecord)
    : list float :=
  match smooth_values uninit (values run_data) method (smooth_window opts) with
  | Ok arr => arr
  | Raise _ => []
  end.

(** The curves of a record on the subplot [idx], by the three modes of
    lines 230 to 254. *)
Definition curves_of (opts : Options) (idx : nat) (run_data : SeriesRecord)
    : list (nat * string * list float) :=
  match selected (smooth_method opts) with
  | None => [(idx, run_name run_data, values run_data)]
  | Some method =>
    if show_raw_and_smooth opts then
      [(idx, "_nolegend_", values run_data);
       (idx, run_name run_data, smoothed_of opts method run_data)]
    else [(idx, run_name run_data, smoothed_of opts method run_data)]
  end.

(** A record that can be drawn: its three sequences have one length,
    and the smoothing selected, if any, returns as many values. *)
Definition drawable (opts : Options) (run_data : SeriesRecord) : Prop :=
  length (steps run_data) = length (values run_data) ∧
  length (walltimes run_data) = length (values run_data) ∧
  match selected (smooth_method opts) with
  | None => True
  | Some method =>
    ∃ arr, smooth_values uninit (values run_data) method (smooth_window opts) = Ok arr ∧
           length arr = length (values run_data)
  end.

(** All the curves of a collection, subplot by subplot. *)
Definition curves_in_order (opts : Options) (data : gmap string (list SeriesRecord))
    : list (nat * string * list float) :=
  imap pair (sorted_items data) ≫= λ item, item.2.2 ≫= curves_of opts item.1.

End Drawable.

(** A line by what the moving average leaves of it whatever the order
    in which numpy adds: its subplot, its label and the number of its
    y values. *)
Definition shape_of_line (il : nat * Line2D) : nat * string * nat :=
  (il.1, label il.2, length (ydata il.2)).

(** The shapes of the curves of a record on the subplot [idx], each
    with as many values as the record has. *)
Definition shapes_of (opts : Options) (idx : nat) (run_data : SeriesRecord)
    : list (nat * string * nat) :=
  match selected (smooth_method opts) with
  | None => [(idx, run_name run_data, length (values run_data))]
  | Some method =>
    if show_raw_and_smooth opts then
      [(idx, "_nolegend_", length (values run_data));
       (idx, run_name run_data, length (values run_data))]
    else [(idx, run_name run_data, length (values run_data))]
  end.

Definition shapes_in_order (opts : Options) (data : gmap string (list SeriesRecord))
    : list (nat * string * nat) :=
  imap pair (sorted_items data) ≫= λ item, item.2.2 ≫= shapes_of opts item.1.

(** A window that [smooth_values] can use for the exponential
    average: none, at most one, or one that [float] converts. *)
Definition window_converts (window : option Z) : Prop :=
  match window with
  | None => True
  | Some w => (w ≤ 1)%Z ∨ ∃ fw, float_of_int w = Ok fw
  end.

(** A window that the moving average can use on every record of a
    collection: none, at most one, or one of which [np.ones] makes a
    kernel, that [float] converts and that is not longer than any
    record. *)
Definition window_fits (window : option Z) (data : gmap string (list SeriesRecord))
    : Prop :=
  match window with
  | None => True
  | Some w =>
    (w ≤ 1)%Z
    ∨ ((∃ ones, np_ones w = Ok ones) ∧
       (∃ fw, float_of_int w = Ok fw) ∧
       ∀ tag recs run_data,
         data !! tag = Some recs → run_data ∈ recs →
         (w ≤ Z.of_nat (length (values run_data)))%Z)
  end.

(** The three sequences of every record have one length. *)
Definition parallel_records (data : gmap string (list SeriesRecord)) : Prop :=
  ∀ tag recs run_data,
    data !! tag = Some recs → run_data ∈ recs →
    length (steps run_data) = length (values run_data) ∧
    length (walltimes run_data) = length (values run_data).

(** * The command *)

(** The arguments that [main] reads from the parser. [directories] has
    at least one element; [output] and [show] matter after the drawing
    only. *)
Module Cli.
Record Args : Type := {
  directories : list string;
  width : float;
  height : float;
  max_cols : Z;
  smooth : option string;
  smooth_window : Z;
  show_both : bool;
  x_axis : string;
  max_step : option Z
}.
End Cli.

(** How [main] ends. *)
Inductive main_outcome : Type :=
  (** no event file was found: a message, and nothing is loaded *)
  | NoEventFiles
  (** nothing could be loaded: a message, and nothing is drawn *)
  | NoData
  (** [create_visualization] was called, and ended so; its exception,
      if any, leaves [main] *)
  | Visualized (o : viz_outcome).

(** The line feed. *)
Definition nl : string := String (Ascii.ascii_of_nat 10) "".

(** [str * n] *)
Definition str_times (s : string) (n : nat) : string :=
  foldr String.append "" (replicate n s).

Section Main.

Variable uninit : nat → float.
Variable prop_cycle : option (gmap string (list string)).
Variable path_exists : string → bool.
Variable os_walk : string → list (string * list string * list string).
Variable resolve : string → list string.
Variable read_events : string → py_result (list (string * py_result (list ScalarEvent))).

(** [repr] of a list of strings and [str] of a length, for the lines
    that show them. *)
Variable repr_list : list string → string.
Variable str_len : nat → string.

(** The options that [main] passes to [create_visualization]. *)
Definition options_of (args : Cli.Args) : Options :=
  {| figsize_per_plot := (Cli.width args, Cli.height args);
     max_cols := Cli.max_cols args;
     smooth_method := Cli.smooth args;
     smooth_window := Some (Cli.smooth_window args);
     show_raw_and_smooth := Cli.show_both args;
     x_axis := Cli.x_axis args |}.

(** The collection that [main] loads from the files it finds. *)
Definition loaded_data (args : Cli.Args) : gmap string (list SeriesRecord) :=
  (load_tb_data resolve read_events
     (find_tb_files path_exists os_walk (Cli.directories args)).1
     (Cli.directories args) (Cli.max_step args)).1.

(** The first lines that [main] prints. *)
Definition banner (args : Cli.Args) : list string :=
  [str_times "=" 60; "TensorBoard Visualization Tool"; str_times "=" 60;
   "Search directories: " +:+ repr_list (Cli.directories args); ""].

(** [main] after the parsing of its arguments: the lines printed by
    [main], [find_tb_files] and [load_tb_data] until [main] returns or
    calls [create_visualization], and how it ends. *)
Definition main (args : Cli.Args) : list string * main_outcome :=
  let out := banner args in
  let '(tb_files, warnings) := find_tb_files path_exists os_walk (Cli.directories args) in
  let out := out ++ warnings in
  match tb_files with
  | [] => (out ++ ["Error: no TensorBoard event files found"], NoEventFiles)
  | _ :: _ =>
    let out := out ++ [nl +:+ "Found " +:+ str_len (length tb_files)
                          +:+ " TensorBoard event files"; ""] in
    let '(data, loading) :=
      load_tb_data resolve read_events tb_files (Cli.directories args)
        (Cli.max_step args) in
    let out := out ++ loading in
    if decide (size data = 0) then
      (out ++ ["Error: failed to load any data"], NoData)
    else
      let out := out ++ [nl +:+ "Successfully loaded " +:+ str_len (size data)
                            +:+ " metrics"; ""] in
      (out, Visualized (create_visualization uninit prop_cycle data (options_of args)))
  end.

End Main.

(** A binary64 number that is neither infinite nor a NaN. *)
Definition finite_float (x : float) : Prop :=
  match Prim2SF x with
  | S754_zero _ | S754_finite _ _ _ => True
  | S754_infinity _ | S754_nan => False
  end.

(** * A small disk for the examples

    The directory [logs] of the small world, with its three runs; no
    other directory exists. *)
Module Disk.

Definition path_exists (directory : string) : bool :=
  String.eqb directory "logs".

Definition os_walk (directory : string)
    : list (string * list string * list string) :=
  if String.eqb directory "logs" then
    [("logs", ["run1"; "run2"; "run3"], ["notes.txt"]);
     ("logs/run1", [], ["events.out.tfevents.1"]);
     ("logs/run2", [], ["events.out.tfevents.2"]);
     ("logs/run3", [], ["events.out.tfevents.3"; "config.json"])]
  else [].

(** [repr] of a list of plain names. *)
Definition repr_list (l : list string) : string :=
  match l with
  | [] => "[]"
  | _ :: _ => "['" +:+ String.concat "', '" l +:+ "']"
  end.

(** [str] of a small length. *)
Definition str_len (n : nat) : string :=
  match n with
  | 0 => "0" | 1 => "1" | 2 => "2" | 3 => "3" | 4 => "4"
  | 5 => "5" | 6 => "6" | 7 => "7" | 8 => "8" | _ => "9"
  end.

(** A reader that can open nothing. *)
Definition unreadable (tb_file : string)
    : py_result (list (string * py_result (list ScalarEvent))) :=
  Raise (OtherError "truncated record").

Definition args (directories : list string) (smooth : option string) : Cli.Args :=
  {| Cli.directories := directories; Cli.width := 8; Cli.height := 4;
     Cli.max_cols := 3; Cli.smooth := smooth;
     Cli.smooth_window := 10; Cli.show_both := false; Cli.x_axis := "step";
     Cli.max_step := None |}.

Definition plain : Options :=
  {| figsize_per_plot := (8, 4)%float;
     max_cols := 3; smooth_method := None; smooth_window := Some 10%Z;
     show_raw_and_smooth := false; x_axis := "step" |}.

Definition smoothing (method : string) (window : Z) : Options :=
  {| figsize_per_plot := (8, 4)%float;
     max_cols := 3; smooth_method := Some method; smooth_window := Some window;
     show_raw_and_smooth := false; x_axis := "walltime" |}.

Definition no_columns : Options :=
  {| figsize_per_plot := (8, 4)%float;
     max_cols := 0; smooth_method := None; smooth_window := Some 10%Z;
     show_raw_and_smooth := false; x_axis := "step" |}.

(** The plain options with a size given for the subplots. *)
Definition sized (figsize_per_plot : float * float) : Options :=
  {| figsize_per_plot := figsize_per_plot;
     max_cols := 3; smooth_method := None; smooth_window := Some 10%Z;
     show_raw_and_smooth := false; x_axis := "step" |}.

(** The collection with the one record of the third run. *)
Definition one_metric : gmap string (list SeriesRecord) :=
  {["loss" := [Sample.loss3]]}.

End Disk.
(** * Facts about the helpers *)

Lemma for_each_app {A S : Type} (body : S → A → py_result S) xs ys s :
  for_each body (xs ++ ys) s = (s' ← for_each body xs s; for_each body ys s').
Proof.
  revert s. induction xs as [|x xs IH]; intros s; simpl; [done|].
  destruct (body s x) as [s'|e]; simpl; [apply IH | done].
Qed.

Lemma getitem_Ok {A : Type} (a : list A) i x : a !! i = Some x → getitem a i = Ok x.
Proof. unfold getitem. by intros ->. Qed.

Lemma setitem_Ok {A : Type} (a : list A) i x :
  i < length a → setitem a i x = Ok (<[i:=x]> a).
Proof. unfold setitem. intros H. by rewrite decide_True. Qed.

Lemma length_ema_from alpha prev vs : length (ema_from alpha prev vs) = length vs.
Proof. revert prev. induction vs as [|v vs IH]; intros prev; simpl; [done|]. by rewrite IH. Qed.

Lemma length_ema_spec alpha values : length (ema_spec alpha values) = length values.
Proof. destruct values; simpl; [done|]. by rewrite length_ema_from. Qed.

Lemma ema_from_lookup_S alpha prev vs i x p :
  (prev :: vs) !! S i = Some x →
  (prev :: ema_from alpha prev vs) !! i = Some p →
  (prev :: ema_from alpha prev vs) !! S i = Some (alpha * x + (1 - alpha) * p)%float.
Proof.
  revert prev i. induction vs as [|v vs IH]; intros prev i; simpl; [done|].
  destruct i as [|i]; simpl.
  - intros [= ->] [= ->]. done.
  - intros Hx Hp. by apply (IH _ i).
Qed.

Lemma ema_spec_lookup_S alpha values i x p :
  values !! S i = Some x →
  ema_spec alpha values !! i = Some p →
  ema_spec alpha values !! S i = Some (alpha * x + (1 - alpha) * p)%float.
Proof. destruct values as [|v0 vs]; [done|]. apply ema_from_lookup_S. Qed.

Lemma ema_spec_lookup_0 alpha values : ema_spec alpha values !! 0 = values !! 0.
Proof. by destruct values. Qed.

Section SmoothingFacts.

Variable uninit : nat → float.

Lemma length_np_empty_like values :
  length (np_empty_like uninit values) = length values.
Proof. unfold np_empty_like. by rewrite length_fmap, length_seq. Qed.

(** After [k] rounds of the loop the first [k + 1] cells hold the
    recurrence and the others are as they were allocated. *)
Lemma ema_loop_prefix alpha values (junk : list float) k :
  length junk = length values →
  S k ≤ length values →
  for_each (ema_body alpha values) (seq 1 k)
           (take 1 (ema_spec alpha values) ++ drop 1 junk)
  = Ok (take (S k) (ema_spec alpha values) ++ drop (S k) junk).
Proof.
  intros Hjunk. induction k as [|k IH]; intros Hk; [done|].
  rewrite seq_S, for_each_app, IH by lia. simpl.
  pose proof (length_ema_spec alpha values) as HE.
  destruct (lookup_lt_is_Some_2 values (S k)) as [x Hx]; [lia|].
  destruct (lookup_lt_is_Some_2 (ema_spec alpha values) k) as [p Hp]; [lia|].
  unfold ema_body. rewrite (getitem_Ok _ _ _ Hx). simpl.
  replace (k - 0) with k by lia.
  rewrite (getitem_Ok _ _ p);
    [|rewrite lookup_app_l by (rewrite length_take; lia);
      rewrite lookup_take_lt by lia; done].
  simpl. rewrite setitem_Ok
    by (rewrite length_app, length_take, length_drop; lia).
  f_equal.
  pose proof (ema_spec_lookup_S alpha values k x p Hx Hp) as HS.
  rewrite insert_app_r_alt by (rewrite length_take; lia).
  rewrite length_take, Nat.min_l by lia.
  replace (S k - S k) with 0 by lia.
  rewrite (take_S_r _ _ _ HS), <- app_assoc. f_equal.
  destruct (drop (S k) junk) as [|j js] eqn:Hd.
  - apply (f_equal length) in Hd. rewrite length_drop in Hd. simpl in Hd. lia.
  - simpl. f_equal.
    change js with (drop 1 (j :: js)). rewrite <- Hd, drop_drop.
    by replace (S k + 1) with (S (S k)) by lia.
Qed.

(** The loop of [smooth_values] computes the scan of the
    specification, whatever the allocated array held. *)
Lemma smooth_values_ema values method w :
  (1 < w)%Z → method ≠ "ma" →
  smooth_values uninit values method (Some w)
  = (fw ← float_of_int w; Ok (ema_spec (2 / (fw + 1)) values)).
Proof.
  intros Hw Hm. unfold smooth_values.
  rewrite decide_False by lia. rewrite decide_False by done.
  destruct (float_of_int w) as [fw|e]; [|done]. cbn [mbind py_bind].
  set (alpha := (2 / (fw + 1))%float).
  destruct (decide (length values = 0)) as [H0|H0].
  { by destruct values. }
  destruct (lookup_lt_is_Some_2 values 0) as [v0 Hv0]; [lia|].
  pose proof (length_np_empty_like values) as HU.
  rewrite (getitem_Ok _ _ _ Hv0). cbn [mbind py_bind].
  rewrite setitem_Ok by lia. cbn [mbind py_bind].
  replace (<[0:=v0]> (np_empty_like uninit values))
    with (take 1 (ema_spec alpha values) ++ drop 1 (np_empty_like uninit values)).
  2:{ destruct (np_empty_like uninit values) as [|u us]; [simpl in HU; lia|].
      destruct values as [|v vs]; [done|]. simpl in Hv0. injection Hv0 as ->.
      simpl. by rewrite drop_0. }
  rewrite ema_loop_prefix by lia.
  f_equal. rewrite drop_ge by lia.
  rewrite app_nil_r. apply take_ge. rewrite length_ema_spec. lia.
Qed.

Lemma length_np_convolve_same a v out :
  np_convolve_same a v = Ok out → length out = length a `max` length v.
Proof.
  unfold np_convolve_same.
  repeat case_decide; try done.
  all: intros [= <-]; rewrite length_fmap, length_seq; lia.
Qed.

Lemma length_np_ones w ones : np_ones w = Ok ones → length ones = Z.to_nat w.
Proof.
  unfold np_ones. repeat case_decide; try done.
  intros [= <-]. apply length_replicate.
Qed.

(** The moving average has the length of the longer of the sequence
    and the kernel. *)
Lemma smooth_values_ma_length values w ones fw :
  values ≠ [] → (1 < w)%Z → np_ones w = Ok ones → float_of_int w = Ok fw →
  ∃ out, smooth_values uninit values "ma" (Some w) = Ok out ∧
         length out = length values `max` Z.to_nat w.
Proof.
  intros Hne Hw Hones Hfw. unfold smooth_values.
  rewrite decide_False by lia. rewrite decide_True by done.
  rewrite Hones. cbn [mbind py_bind]. rewrite Hfw. cbn [mbind py_bind].
  apply length_np_ones in Hones.
  destruct (np_convolve_same values _) as [out|e] eqn:Hconv.
  - exists out. split; [done|]. apply length_np_convolve_same in Hconv.
    by rewrite Hconv, length_fmap, Hones.
  - exfalso. revert Hconv. unfold np_convolve_same.
    rewrite length_fmap, Hones.
    assert (length values ≠ 0) by (by destruct values).
    repeat case_decide; try done; lia.
Qed.

(** C8: whatever the sequence and the method, [smooth_values] returns
    the sequence unchanged when the window is [None] or at most 1. *)
Theorem smooth_values_identity values method window :
  no_window window → smooth_values uninit values method window = Ok values.
Proof.
  destruct window as [w|]; simpl; [|done].
  intros Hw. by rewrite decide_True.
Qed.

(** C10, amended: for a window above 1 that [float] converts, every
    method other than the string ["ma"], known or not, is smoothed as
    ["ema"] is, with no error for the unknown name: the call returns
    the sequence of the exponential recurrence, [out[0] = values[0]]
    and [out[i] = alpha * values[i] + (1 - alpha) * out[i - 1]] with
    [alpha = 2.0 / (float(window) + 1.0)]. *)
Theorem smooth_values_default_ema values method w fw :
  (1 < w)%Z → method ≠ "ma" → float_of_int w = Ok fw →
  smooth_values uninit values method (Some w)
  = smooth_values uninit values "ema" (Some w) ∧
  smooth_values uninit values method (Some w)
  = Ok (ema_spec (2 / (fw + 1)) values).
Proof.
  intros Hw Hm Hfw. rewrite !smooth_values_ema by done.
  by rewrite Hfw.
Qed.

(** C4, amended: for a sequence that is not empty and a window above
    1 that [float] converts, [smooth_values] with ["ema"] returns a
    sequence of the same length whose first value is the first of the
    input and whose value at every [i >= 1] is
    [alpha * values[i] + (1 - alpha) * out[i - 1]], where
    [alpha = 2.0 / (float(window) + 1.0)]. *)
Theorem smooth_values_ema_recurrence values w fw :
  values ≠ [] → (1 < w)%Z → float_of_int w = Ok fw →
  let alpha := (2 / (fw + 1))%float in
  ∃ out, smooth_values uninit values "ema" (Some w) = Ok out ∧
         length out = length values ∧
         out !! 0 = values !! 0 ∧
         ∀ i, 1 ≤ i < length values →
           out !!! i
           = (alpha * (values !!! i) + (1 - alpha) * (out !!! (i - 1)%nat))%float.
Proof.
  intros Hne Hw Hfw alpha. rewrite smooth_values_ema by done.
  rewrite Hfw. cbn [mbind py_bind]. fold alpha.
  exists (ema_spec alpha values).
  split; [done|]. split; [apply length_ema_spec|].
  split; [apply ema_spec_lookup_0|].
  intros i Hi. destruct i as [|i]; [lia|].
  replace (S i - 1) with i by lia.
  destruct (lookup_lt_is_Some_2 values (S i)) as [x Hx]; [lia|].
  destruct (lookup_lt_is_Some_2 (ema_spec alpha values) i) as [p Hp];
    [rewrite length_ema_spec; lia|].
  rewrite (list_lookup_total_correct _ _ _ Hx).
  rewrite (list_lookup_total_correct _ _ _ Hp).
  apply list_lookup_total_correct. by apply ema_spec_lookup_S.
Qed.

End SmoothingFacts.

Example ema_1_2_3 :
  smooth_values (λ _, 0%float) [1; 2; 3]%float "ema" (Some 3%Z)
  = Ok [1; 1.5; 2.25]%float.
Proof. vm_compute. reflexivity. Qed.

Example ma_five_values :
  ∃ out, smooth_values (λ _, 0%float) [3; 6; 9; 12; 15]%float "ma" (Some 3%Z) = Ok out ∧
         length out = 5.
Proof. eexists. split; [vm_compute; reflexivity|]. done. Qed.

(** Line 141 makes the kernel before it converts the window: at
    [2^1024] the moving average raises the [ValueError] of [np.ones],
    not the [OverflowError] of [float]; at [2^62] [float] would convert
    the window, and [np.ones] refuses the size. *)
Example ma_window_too_large :
  (∃ msg, smooth_values (λ _, 0%float) [1; 2; 3]%float "ma" (Some (2 ^ 1024)%Z)
          = Raise (ValueError msg)) ∧
  (∃ fw, float_of_int (2 ^ 62) = Ok fw) ∧
  ∃ msg, smooth_values (λ _, 0%float) [1; 2; 3]%float "ma" (Some (2 ^ 62)%Z)
         = Raise (ValueError msg).
Proof. repeat split; eexists; vm_compute; reflexivity. Qed.


(** C8, at a window of 1. *)
Lemma smooth_values_identity_witness :
  no_window (Some 1%Z) ∧
  smooth_values (λ _, 0%float) [1; 2; 3]%float "ema" (Some 1%Z) = Ok [1; 2; 3]%float.
Proof.
  split; [simpl; lia|]. apply smooth_values_identity. simpl. lia.
Defined.

(** C10, amended, at a method name that the script does not know. *)
Lemma smooth_values_default_ema_witness :
  (1 < 3)%Z ∧ "median" ≠ "ma" ∧ float_of_int 3 = Ok 3%float ∧
  smooth_values (λ _, 0%float) [1; 2; 3]%float "median" (Some 3%Z)
  = smooth_values (λ _, 0%float) [1; 2; 3]%float "ema" (Some 3%Z) ∧
  smooth_values (λ _, 0%float) [1; 2; 3]%float "median" (Some 3%Z)
  = Ok (ema_spec (2 / (3 + 1)) [1; 2; 3]%float).
Proof.
  split; [lia|]. split; [discriminate|]. split; [reflexivity|].
  apply smooth_values_default_ema; [lia | discriminate | reflexivity].
Defined.

(** C10 as it is written fails at the window [2^1024]: with the
    unknown method ["median"], [float(window)] raises [OverflowError]
    on line 145, and no recurrence is applied to any sequence. *)
Lemma smooth_values_default_ema_overflow :
  (1 < 2 ^ 1024)%Z ∧ "median" ≠ "ma" ∧
  smooth_values (λ _, 0%float) [1; 2; 3]%float "median" (Some (2 ^ 1024)%Z)
  = Raise (OverflowError "int too large to convert to float") ∧
  ¬ ∃ out, smooth_values (λ _, 0%float) [1; 2; 3]%float "median" (Some (2 ^ 1024)%Z)
           = Ok out.
Proof.
  assert (smooth_values (λ _, 0%float) [1; 2; 3]%float "median" (Some (2 ^ 1024)%Z)
          = Raise (OverflowError "int too large to convert to float")) as H
    by (vm_compute; reflexivity).
  split; [done|]. split; [discriminate|]. split; [done|].
  intros [out Hout]. congruence.
Qed.

(** C4, amended, at the window 3. *)
Lemma smooth_values_ema_recurrence_witness :
  [1; 2; 3]%float ≠ [] ∧ (1 < 3)%Z ∧ float_of_int 3 = Ok 3%float ∧
  ∃ out, smooth_values (λ _, 0%float) [1; 2; 3]%float "ema" (Some 3%Z) = Ok out ∧
         length out = 3 ∧
         out !! 0 = Some 1%float ∧
         ∀ i, 1 ≤ i < 3 →
           out !!! i
           = (2 / (3 + 1) * ([1; 2; 3] !!! i) + (1 - 2 / (3 + 1)) * (out !!! (i - 1)%nat))%float.
Proof.
  split; [discriminate|]. split; [lia|]. split; [reflexivity|].
  apply (smooth_values_ema_recurrence (λ _, 0%float) [1; 2; 3]%float 3 3%float);
    [discriminate | lia | reflexivity].
Defined.

(** C4 as it is written fails at the window [2^1024]: [float(window)]
    raises [OverflowError], and [smooth_values] returns no sequence. *)
Lemma smooth_values_ema_overflow :
  [1]%float ≠ [] ∧ (1 < 2 ^ 1024)%Z ∧
  smooth_values (λ _, 0%float) [1]%float "ema" (Some (2 ^ 1024)%Z)
  = Raise (OverflowError "int too large to convert to float") ∧
  ¬ ∃ out, smooth_values (λ _, 0%float) [1]%float "ema" (Some (2 ^ 1024)%Z) = Ok out.
Proof.
  assert (smooth_values (λ _, 0%float) [1]%float "ema" (Some (2 ^ 1024)%Z)
          = Raise (OverflowError "int too large to convert to float")) as H
    by (vm_compute; reflexivity).
  split; [discriminate|]. split; [done|]. split; [done|].
  intros [out Hout]. congruence.
Qed.

(** C1: the moving average of a sequence of 3 values with a window of
    10 has 10 values, not 3: [np.convolve] in mode ["same"] returns
    as many values as the longer of its two operands has. *)
Theorem smooth_values_ma_short_input :
  ∃ out, smooth_values (λ _, 0%float) [1; 2; 3]%float "ma" (Some 10%Z) = Ok out ∧
         length out = 10 ∧ length [1; 2; 3]%float = 3.
Proof. eexists. split; [vm_compute; reflexivity|]. done. Qed.

(** * Paths and run names *)

Lemma relative_to_Some (p base rel : list string) :
  relative_to p base = Some rel ↔ p = base ++ rel.
Proof.
  revert p. induction base as [|b base IH]; intros p; simpl.
  - split; [intros [= ->] | intros ->]; done.
  - destruct p as [|c p]; [done|].
    case_decide as Hbc.
    + subst c. rewrite IH. split; [intros -> | intros [= ->]]; done.
    + split; [done | intros [= -> _]; done].
Qed.

Lemma relative_to_None (p base : list string) :
  relative_to p base = None ↔ ¬ base `prefix_of` p.
Proof.
  split.
  - intros Hnone [rel Hrel]. apply relative_to_Some in Hrel. congruence.
  - intros Hnot. destruct (relative_to p base) as [rel|] eqn:Hrel; [|done].
    apply relative_to_Some in Hrel. destruct Hnot. by exists rel.
Qed.

Lemma relative_run_name_find (log_dir : list string) (base_paths : list (list string)) :
  relative_run_name log_dir base_paths
  = (λ found, str_relative (drop (length found.2) log_dir))
      <$> list_find (λ root, root `prefix_of` log_dir) base_paths.
Proof.
  induction base_paths as [|base_path base_paths IH]; [done|].
  cbn [relative_run_name list_find].
  destruct (relative_to log_dir base_path) as [rel|] eqn:Hrel.
  - pose proof Hrel as Hpre. apply relative_to_Some in Hpre.
    rewrite decide_True by (by exists rel). simpl.
    subst log_dir. by rewrite drop_app_length.
  - apply relative_to_None in Hrel. rewrite decide_False by done.
    rewrite IH. by destruct (list_find _ base_paths) as [[i root]|].
Qed.

(** * The series merger *)

Lemma zip3_fmap (events : list ScalarEvent) :
  zip3 (step <$> events) (value <$> events) (wall_time <$> events)
  = (λ e, (step e, value e, wall_time e)) <$> events.
Proof.
  unfold zip3. induction events as [|e events IH]; [done|].
  simpl. f_equal. apply IH.
Qed.

Lemma unzip3_fmap (events : list ScalarEvent) :
  unzip3 ((λ e, (step e, value e, wall_time e)) <$> events)
  = (step <$> events, value <$> events, wall_time <$> events).
Proof. unfold unzip3. by rewrite <- !list_fmap_compose. Qed.

Lemma filter_zip3 (max_step : Z) (events : list ScalarEvent) :
  filter (λ t : Z * float * float, (t.1.1 ≤ max_step)%Z)
         (zip3 (step <$> events) (value <$> events) (wall_time <$> events))
  = (λ e, (step e, value e, wall_time e))
      <$> filter (λ e, (step e ≤ max_step)%Z) events.
Proof.
  rewrite zip3_fmap. induction events as [|e events IH]; [done|].
  rewrite fmap_cons, !filter_cons. simpl.
  case_decide; [rewrite fmap_cons|]; by rewrite IH.
Qed.

(** What one round of the loop over the tags does, in terms of the
    observations that the bound keeps. *)
Lemma load_tag_Ok rn tb_file max_step (data : gmap string (list SeriesRecord)) tag events :
  load_tag rn tb_file max_step data (tag, Ok events)
  = (match within_bound max_step events with
     | [] => data
     | kept =>
       append_record data tag
         {| steps := step <$> kept; values := value <$> kept;
            walltimes := wall_time <$> kept; run_name := rn; file_path := tb_file |}
     end, None).
Proof.
  unfold load_tag, within_bound.
  destruct max_step as [M|].
  - destruct events as [|e events]; [done|].
    rewrite filter_zip3.
    destruct (filter _ (e :: events)) as [|k kept]; [done|].
    rewrite fmap_cons. cbv zeta.
    rewrite <- (fmap_cons (λ e0, (step e0, value e0, wall_time e0))), unzip3_fmap.
    done.
  - by destruct events.
Qed.

Lemma load_tag_Raise rn tb_file max_step (data : gmap string (list SeriesRecord)) tag e :
  load_tag rn tb_file max_step data (tag, Raise e) = (data, Some e).
Proof. done. Qed.

Lemma stored_append (data : gmap string (list SeriesRecord)) tag rec tag' rec' :
  stored (append_record data tag rec) tag' rec'
  ↔ stored data tag' rec' ∨ (tag' = tag ∧ rec' = rec).
Proof.
  unfold stored, append_record. destruct (decide (tag' = tag)) as [->|Hne].
  - rewrite lookup_insert_eq. split.
    + intros (recs & [= <-] & Hin). apply elem_of_app in Hin as [Hin|Hin].
      * left. destruct (data !! tag) as [old|]; [by exists old|].
        by apply elem_of_nil in Hin.
      * right. apply list_elem_of_singleton in Hin. done.
    + intros [(recs & Hrecs & Hin)|[_ ->]]; eexists; (split; [done|]).
      * rewrite Hrecs. simpl. apply elem_of_app. by left.
      * apply elem_of_app. right. by apply list_elem_of_singleton.
  - rewrite lookup_insert_ne by done.
    split; [intros H; by left | intros [H|[? _]]; done].
Qed.

Lemma append_record_extends (data : gmap string (list SeriesRecord)) tag rec tag' recs :
  data !! tag' = Some recs →
  ∃ more, append_record data tag rec !! tag' = Some (recs ++ more).
Proof.
  intros Hrecs. unfold append_record. destruct (decide (tag' = tag)) as [->|Hne].
  - rewrite lookup_insert_eq, Hrecs. by exists [rec].
  - rewrite lookup_insert_ne by done. exists []. by rewrite app_nil_r.
Qed.

Lemma extends_refl (data : gmap string (list SeriesRecord)) : extends data data.
Proof. intros tag recs Hrecs. exists []. by rewrite app_nil_r. Qed.

Lemma extends_trans (d1 d2 d3 : gmap string (list SeriesRecord)) :
  extends d1 d2 → extends d2 d3 → extends d1 d3.
Proof.
  intros H12 H23 tag recs Hrecs.
  destruct (H12 _ _ Hrecs) as [m1 H1]. destruct (H23 _ _ H1) as [m2 H2].
  exists (m1 ++ m2). by rewrite app_assoc.
Qed.

Lemma extends_stored (data data' : gmap string (list SeriesRecord)) tag rec :
  extends data data' → stored data tag rec → stored data' tag rec.
Proof.
  intros Hext (recs & Hrecs & Hin). destruct (Hext _ _ Hrecs) as [more Hmore].
  exists (recs ++ more). split; [done|]. apply elem_of_app. by left.
Qed.

(** The record that one round appends. *)
Lemma load_tag_stored rn tb_file max_step (data : gmap string (list SeriesRecord))
    tag events tag' rec :
  stored (load_tag rn tb_file max_step data (tag, Ok events)).1 tag' rec
  ↔ stored data tag' rec
    ∨ (tag' = tag ∧ within_bound max_step events ≠ [] ∧
       rec = {| steps := step <$> within_bound max_step events;
                values := value <$> within_bound max_step events;
                walltimes := wall_time <$> within_bound max_step events;
                run_name := rn; file_path := tb_file |}).
Proof.
  rewrite load_tag_Ok. cbn [fst].
  destruct (within_bound max_step events) as [|k kept] eqn:Hkept.
  - split; [by left | intros [H|(_ & H & _)]; done].
  - rewrite stored_append. split.
    + intros [H|[-> ->]]; [by left | by right].
    + intros [H|(-> & _ & ->)]; [by left | by right].
Qed.

Lemma load_tag_extends rn tb_file max_step (data : gmap string (list SeriesRecord)) entry :
  extends data (load_tag rn tb_file max_step data entry).1.
Proof.
  destruct entry as [tag [events|e]]; [|apply extends_refl].
  rewrite load_tag_Ok. cbn [fst].
  destruct (within_bound max_step events) as [|k kept]; [apply extends_refl|].
  intros tag' recs. apply append_record_extends.
Qed.

(** The loop over the tags of one file: it ends with the first
    exception of the log, keeps what the collection held, and stores
    nothing but records of the tags it went through. *)
Lemma run_each_load_tag rn tb_file max_step scalar_tags
    (data : gmap string (list SeriesRecord)) :
  let r := run_each (load_tag rn tb_file max_step) scalar_tags data in
  r.2 = first_raise scalar_tags ∧
  extends data r.1 ∧
  ∀ tag rec, stored r.1 tag rec →
    stored data tag rec
    ∨ ∃ events, (tag, Ok events) ∈ scalar_tags ∧
        within_bound max_step events ≠ [] ∧
        rec = {| steps := step <$> within_bound max_step events;
                 values := value <$> within_bound max_step events;
                 walltimes := wall_time <$> within_bound max_step events;
                 run_name := rn; file_path := tb_file |}.
Proof.
  revert data. induction scalar_tags as [|[tag [events|e]] rest IH]; intros data.
  - cbn. split; [done|]. split; [apply extends_refl | by left].
  - cbn [run_each first_raise].
    pose proof (load_tag_stored rn tb_file max_step data tag events) as Hst.
    pose proof (load_tag_extends rn tb_file max_step data (tag, Ok events)) as Hext.
    rewrite load_tag_Ok in *. cbn [fst] in *.
    set (data1 := match within_bound max_step events with [] => data | _ => _ end) in *.
    destruct (IH data1) as (Herr & Hext' & Hrec).
    split; [done|]. split; [by eapply extends_trans|].
    intros tag' rec Hin. destruct (Hrec _ _ Hin) as [Hold|(events' & Hin' & Hne & ->)].
    + apply Hst in Hold as [Hold|(-> & Hne & ->)]; [by left|].
      right. exists events. split; [apply elem_of_cons; by left | done].
    + right. exists events'. split; [apply elem_of_cons; by right | done].
  - cbn. split; [done|]. split; [apply extends_refl | by left].
Qed.

Section LoaderFacts.

Variable resolve : string → list string.
Variable read_events : string → py_result (list (string * py_result (list ScalarEvent))).


(** The loop of lines 69 to 82 finds the identifier that the
    specification describes. *)
Lemma compute_run_name_spec (base_paths : list (list string)) tb_file :
  compute_run_name resolve base_paths tb_file = run_identifier resolve base_paths tb_file.
Proof.
  unfold compute_run_name, run_identifier. rewrite relative_run_name_find.
  by destruct (list_find _ base_paths) as [[i root]|].
Qed.

(** One file: the lines printed, and the records added. *)
Lemma load_file_spec base_paths max_step
    (data : gmap string (list SeriesRecord)) (out : list string) tb_file :
  let st := load_file resolve read_events base_paths max_step (data, out) tb_file in
  st.2 = out ++ ["Loading: " +:+ tb_file]
             ++ match read_error read_events tb_file with
                | Some e => [failed_line tb_file e]
                | None => []
                end ∧
  extends data st.1 ∧
  (∀ e, read_events tb_file = Raise e → st.1 = data) ∧
  ∀ tag rec, stored st.1 tag rec →
    stored data tag rec
    ∨ (file_path rec = tb_file ∧ record_of_file resolve read_events base_paths max_step tag rec).
Proof.
  unfold load_file, read_error.
  destruct (read_events tb_file) as [scalar_tags|e] eqn:Hread.
  - pose proof (run_each_load_tag (compute_run_name resolve base_paths tb_file)
                  tb_file max_step scalar_tags data) as (Herr & Hext & Hrec).
    destruct (run_each _ scalar_tags data) as [data' [e|]];
      cbn [fst snd] in *; rewrite <- Herr.
    all: split; [by rewrite <- ?app_assoc, ?app_nil_r|].
    all: split; [done|]. all: split; [done|].
    all: intros tag rec Hin; destruct (Hrec _ _ Hin) as [?|(events & ? & ? & ->)];
      [by left|right].
    all: split; [done|]; exists scalar_tags, events;
      cbn [file_path steps values walltimes run_name]; by rewrite Hread.
  - cbn [fst snd]. split; [by rewrite <- app_assoc|].
    split; [apply extends_refl|]. split; [done|]. intros tag rec Hin. by left.
Qed.

Lemma load_files_app base_paths max_step l1 l2
    (st : gmap string (list SeriesRecord) * list string) :
  load_files resolve read_events base_paths max_step (l1 ++ l2) st
  = load_files resolve read_events base_paths max_step l2 (load_files resolve read_events base_paths max_step l1 st).
Proof. apply foldl_app. Qed.

(** The loop over the files only appends. *)
Lemma load_files_extends base_paths max_step tb_files
    (st : gmap string (list SeriesRecord) * list string) :
  extends st.1 (load_files resolve read_events base_paths max_step tb_files st).1.
Proof.
  revert st. induction tb_files as [|f tb_files IH]; intros [data out].
  - apply extends_refl.
  - cbn [load_files foldl]. eapply extends_trans; [|apply IH].
    apply load_file_spec.
Qed.

(** Every record that the loop over the files adds describes its
    file. *)
Lemma load_files_stored base_paths max_step tb_files
    (st : gmap string (list SeriesRecord) * list string) tag rec :
  stored (load_files resolve read_events base_paths max_step tb_files st).1 tag rec →
  stored st.1 tag rec
  ∨ (file_path rec ∈ tb_files ∧ record_of_file resolve read_events base_paths max_step tag rec).
Proof.
  revert st. induction tb_files as [|f tb_files IH]; intros [data out] Hin.
  - by left.
  - cbn [load_files foldl] in Hin. apply IH in Hin as [Hin|[Hf Hrec]].
    + apply load_file_spec in Hin as [Hin|[<- Hrec]]; [by left|].
      right. split; [apply elem_of_cons; by left | done].
    + right. split; [apply elem_of_cons; by right | done].
Qed.

Lemma load_tb_data_stored tb_files base_directories max_step tag rec :
  stored (load_tb_data resolve read_events tb_files base_directories max_step).1 tag rec →
  file_path rec ∈ tb_files ∧
  record_of_file resolve read_events (resolve <$> base_directories) max_step tag rec.
Proof.
  intros Hin. apply load_files_stored in Hin as [(recs & Hrecs & _)|Hin]; [|done].
  cbn [fst] in Hrecs. by rewrite lookup_empty in Hrecs.
Qed.

Lemma within_bound_Forall (M : Z) events :
  Forall (λ e, (step e ≤ M)%Z) (within_bound (Some M) events).
Proof. unfold within_bound. apply Forall_forall. intros e He. by apply list_elem_of_filter in He as [? _]. Qed.

Lemma within_bound_beyond (M : Z) events :
  Forall (λ e, (M < step e)%Z) events → within_bound (Some M) events = [].
Proof.
  unfold within_bound. induction 1 as [|e events He _ IH]; [done|].
  rewrite filter_cons, decide_False by lia. done.
Qed.

(** C7: every Series Record that [load_tb_data] stores has [steps],
    [values] and [walltimes] of one common length, and that length is
    at least one: a record without observations is never stored. *)
Theorem load_tb_data_series_invariant tb_files base_directories max_step tag recs rec :
  (load_tb_data resolve read_events tb_files base_directories max_step).1 !! tag = Some recs →
  rec ∈ recs →
  length (steps rec) = length (values rec) ∧
  length (values rec) = length (walltimes rec) ∧
  1 ≤ length (steps rec).
Proof.
  intros Hrecs Hin.
  destruct (load_tb_data_stored tb_files base_directories max_step tag rec)
    as (_ & scalar_tags & events & _ & _ & Hne & -> & -> & -> & _).
  { by exists recs. }
  rewrite !length_fmap. split; [done|]. split; [done|].
  destruct (within_bound max_step events); [done | simpl; lia].
Qed.

(** C2: with the bound [M] on the step, every Series Record that
    [load_tb_data] stores has steps at most [M] only; and when the
    bound removes every observation that a file has for a tag, no
    record of that file is stored under that tag. *)
Theorem load_tb_data_max_step tb_files base_directories (M : Z) :
  let data := (load_tb_data resolve read_events tb_files base_directories (Some M)).1 in
  (∀ tag recs rec, data !! tag = Some recs → rec ∈ recs →
     Forall (λ s, (s ≤ M)%Z) (steps rec)) ∧
  (∀ tb_file tag,
     (∀ scalar_tags events,
        read_events tb_file = Ok scalar_tags →
        (tag, Ok events) ∈ scalar_tags →
        Forall (λ e, (M < step e)%Z) events) →
     ∀ recs rec, data !! tag = Some recs → rec ∈ recs →
       file_path rec ≠ tb_file).
Proof.
  split.
  - intros tag recs rec Hrecs Hin.
    destruct (load_tb_data_stored tb_files base_directories (Some M) tag rec)
      as (_ & scalar_tags & events & _ & _ & _ & -> & _).
    { by exists recs. }
    apply Forall_fmap. apply within_bound_Forall.
  - intros tb_file tag Hall recs rec Hrecs Hin <-.
    destruct (load_tb_data_stored tb_files base_directories (Some M) tag rec)
      as (_ & scalar_tags & events & Hread & Htag & Hne & _).
    { by exists recs. }
    apply Hne, within_bound_beyond. by eapply Hall.
Qed.

(** C3: the run identifier that [load_tb_data] computes for a file is
    the parent directory of the file relative to the first root
    directory, in the order supplied, that contains it, and the
    absolute parent directory when no root contains it; every stored
    record carries the identifier of its file, so that records whose
    files have the same parent directory carry the same identifier. *)
Theorem load_tb_data_run_identifier tb_files base_directories max_step :
  let roots := resolve <$> base_directories in
  let data := (load_tb_data resolve read_events tb_files base_directories max_step).1 in
  (∀ tb_file, compute_run_name resolve roots tb_file = run_identifier resolve roots tb_file) ∧
  (∀ tag recs rec, data !! tag = Some recs → rec ∈ recs →
     run_name rec = run_identifier resolve roots (file_path rec)) ∧
  (∀ tag1 recs1 rec1 tag2 recs2 rec2,
     data !! tag1 = Some recs1 → rec1 ∈ recs1 →
     data !! tag2 = Some recs2 → rec2 ∈ recs2 →
     parent (resolve (file_path rec1)) = parent (resolve (file_path rec2)) →
     run_name rec1 = run_name rec2).
Proof.
  assert (∀ tag recs rec,
    (load_tb_data resolve read_events tb_files base_directories max_step).1 !! tag = Some recs →
    rec ∈ recs →
    run_name rec = run_identifier resolve (resolve <$> base_directories) (file_path rec))
    as Hname.
  { intros tag recs rec Hrecs Hin.
    destruct (load_tb_data_stored tb_files base_directories max_step tag rec)
      as (_ & scalar_tags & events & _ & _ & _ & _ & _ & _ & ->).
    { by exists recs. }
    apply compute_run_name_spec. }
  split; [intros; apply compute_run_name_spec|]. split; [done|].
  intros tag1 recs1 rec1 tag2 recs2 rec2 H1 Hin1 H2 Hin2 Hparent.
  rewrite (Hname _ _ _ H1 Hin1), (Hname _ _ _ H2 Hin2).
  unfold run_identifier. by rewrite Hparent.
Qed.


End LoaderFacts.

(** * The figure composer *)

Lemma run_each_preserves {A S : Type} (P : S → Prop) (body : S → A → S * option exn) :
  (∀ s x, P s → P (body s x).1) →
  ∀ xs s, P s → P (run_each body xs s).1.
Proof.
  intros Hbody xs. induction xs as [|x xs IH]; intros s Hs; [done|].
  simpl. specialize (Hbody s x Hs).
  destruct (body s x) as [s' [e|]]; [done|]. by apply IH.
Qed.

Lemma list_to_set_snoc (names : list string) name :
  (list_to_set (names ++ [name]) : gset string) = {[name]} ∪ list_to_set names.
Proof.
  apply set_eq. intros x.
  rewrite elem_of_union, elem_of_singleton, !elem_of_list_to_set, elem_of_app.
  rewrite list_elem_of_singleton. tauto.
Qed.

Lemma distinct_snoc_in (names : list string) name :
  name ∈ names → distinct (names ++ [name]) = distinct names.
Proof.
  intros Hin. unfold distinct. rewrite list_to_set_snoc. f_equal.
  apply subseteq_union_1_L. apply singleton_subseteq_l.
  by apply elem_of_list_to_set.
Qed.

Lemma distinct_snoc_notin (names : list string) name :
  name ∉ names → distinct (names ++ [name]) = S (distinct names).
Proof.
  intros Hin. unfold distinct. rewrite list_to_set_snoc.
  rewrite size_union, size_singleton; [done|].
  apply disjoint_singleton_l. by rewrite elem_of_list_to_set.
Qed.

Lemma palette_nonempty prop_cycle : palette prop_cycle ≠ [].
Proof.
  unfold palette.
  destruct (match prop_cycle with Some _ => _ | None => _ end); done.
Qed.

Lemma color_inv_blank colors : color_inv colors blank_canvas.
Proof.
  split; simpl.
  - intros run col Hin. by apply elem_of_nil in Hin.
  - intros run [col Hcol]. by rewrite lookup_empty in Hcol.
  - reflexivity.
  - intros i run col Hi. by rewrite lookup_nil in Hi.
  - intros idx line Hin. by apply elem_of_nil in Hin.
Qed.

Lemma line_of_log_app log more line :
  line_of_log log line → line_of_log (log ++ more) line.
Proof.
  intros [Hin|[Hl [run Hin]]]; [left|right; split; [done|exists run]];
    apply elem_of_app; by left.
Qed.

(** The first time a name is met in the history extended by one entry. *)
Lemma first_snoc colors (log : list (string * string)) run col :
  (∀ i run' col',
     log !! i = Some (run', col') → run' ∉ (take i log).*1 →
     col' = cycle_nth colors (distinct (take i log).*1)) →
  (run ∉ log.*1 → col = cycle_nth colors (distinct log.*1)) →
  ∀ i run' col',
    (log ++ [(run, col)]) !! i = Some (run', col') →
    run' ∉ (take i (log ++ [(run, col)])).*1 →
    col' = cycle_nth colors (distinct (take i (log ++ [(run, col)])).*1).
Proof.
  intros Hold Hnew i run' col' Hi Hnot.
  destruct (decide (i < length log)) as [Hlt|Hge].
  - rewrite lookup_app_l in Hi by done.
    rewrite take_app_le in * by lia. by apply (Hold i run' col').
  - rewrite lookup_app_r in Hi by lia.
    destruct (i - length log) as [|k] eqn:Hk; [|by destruct k].
    simpl in Hi. injection Hi as <- <-.
    assert (i = length log) as -> by lia.
    rewrite take_app_length in *. by apply Hnew.
Qed.

(** Lines 225 to 228 keep the invariant, and the color they resolve is
    the last entry of the history. *)
Lemma resolve_color_inv colors c run :
  color_inv colors c →
  color_inv colors (resolve_color colors c run).2 ∧
  color_log (resolve_color colors c run).2
  = color_log c ++ [(run, (resolve_color colors c run).1)] ∧
  lines (resolve_color colors c run).2 = lines c.
Proof.
  intros [Hlm Hml Hit Hfirst Hlines]. unfold resolve_color.
  destruct (run_color_map c !! run) as [col|] eqn:Hrun; cbn [fst snd].
  - split; [|done]. split; cbn [color_iter run_color_map color_log lines].
    + intros run' col' Hin. apply elem_of_app in Hin as [Hin|Hin]; [by apply Hlm|].
      apply list_elem_of_singleton in Hin. by injection Hin as -> ->.
    + intros run' Hsome. rewrite fmap_app. apply elem_of_app. left. by apply Hml.
    + rewrite fmap_app. simpl. rewrite distinct_snoc_in; [done|]. by apply Hml.
    + apply first_snoc; [done|]. intros Hnot. destruct Hnot. by apply Hml.
    + intros idx line Hin. by apply line_of_log_app, (Hlines idx).
  - assert (run ∉ (color_log c).*1) as Hfresh.
    { intros Hin. apply list_elem_of_fmap in Hin as ([run' col'] & -> & Hin).
      apply Hlm in Hin. simpl in *. congruence. }
    split; [|done]. split; cbn [color_iter run_color_map color_log lines].
    + intros run' col' Hin. apply elem_of_app in Hin as [Hin|Hin].
      * rewrite lookup_insert_ne; [by apply Hlm|].
        intros <-. apply Hlm in Hin. congruence.
      * apply list_elem_of_singleton in Hin. injection Hin as -> ->.
        by rewrite lookup_insert_eq.
    + intros run' Hsome. rewrite fmap_app. apply elem_of_app.
      destruct (decide (run = run')) as [<-|Hne].
      * right. by apply list_elem_of_singleton.
      * left. apply Hml. by rewrite lookup_insert_ne in Hsome.
    + rewrite fmap_app. simpl. rewrite distinct_snoc_notin by done. by rewrite Hit.
    + apply first_snoc; [done|]. intros _. by rewrite Hit.
    + intros idx line Hin. by apply line_of_log_app, (Hlines idx).
Qed.

Lemma ax_plot_log idx c line : color_log (ax_plot idx c line).1 = color_log c.
Proof. unfold ax_plot. by case_decide. Qed.

Lemma ax_plot_Ok idx c line :
  x_len (xdata line) = length (ydata line) →
  ax_plot idx c line
  = ({| color_iter := color_iter c; run_color_map := run_color_map c;
        color_log := color_log c; subplots := subplots c;
        lines := lines c ++ [(idx, line)] |}, None).
Proof. intros Hlen. unfold ax_plot. by rewrite decide_True. Qed.

(** A line of the history keeps the invariant. *)
Lemma ax_plot_inv colors idx c line :
  color_inv colors c → line_of_log (color_log c) line →
  color_inv colors (ax_plot idx c line).1.
Proof.
  intros Hinv Hline. unfold ax_plot. case_decide; [|done].
  destruct Hinv as [Hlm Hml Hit Hfirst Hlines].
  split; cbn [fst color_iter run_color_map color_log lines]; try done.
  intros idx' line' Hin. apply elem_of_app in Hin as [Hin|Hin]; [by apply (Hlines idx')|].
  apply list_elem_of_singleton in Hin. by injection Hin as -> ->.
Qed.

Lemma add_subplot_inv colors c row col :
  color_inv colors c → color_inv colors (add_subplot c row col).
Proof. by intros []. Qed.

(** A loop whose rounds each add to a trace [t] of the state a part of
    what they are to contribute, and all of it when they end without an
    exception, adds a part of the contributions of all rounds. *)
Lemma run_each_trace {A S B : Type} (t : S → list B) (contrib : A → list B)
    (body : S → A → S * option exn) :
  (∀ s x, ∃ p, p `prefix_of` contrib x ∧ t (body s x).1 = t s ++ p ∧
               ((body s x).2 = None → p = contrib x)) →
  ∀ xs s, ∃ p, p `prefix_of` (xs ≫= contrib) ∧
               t (run_each body xs s).1 = t s ++ p ∧
               ((run_each body xs s).2 = None → p = xs ≫= contrib).
Proof.
  intros Hbody xs. induction xs as [|x xs IH]; intros s.
  - exists []. simpl. by rewrite app_nil_r.
  - simpl. destruct (Hbody s x) as (p & Hp & Ht & Hfull).
    destruct (body s x) as [s' [e|]]; cbn [fst snd] in *.
    + exists p. split; [by apply prefix_app_r|]. done.
    + destruct (IH s') as (q & Hq & Ht' & Hfull').
      exists (contrib x ++ q). rewrite Hfull in * by done.
      split; [by apply prefix_app|]. split.
      * by rewrite Ht', Ht, app_assoc.
      * intros Hnone. by rewrite Hfull'.
Qed.

Section ComposerFacts.

Variable uninit : nat → float.

Lemma draw_run_inv colors opts idx c run_data :
  color_inv colors c →
  color_inv colors (draw_run uninit colors opts idx c run_data).1.
Proof.
  intros Hinv. unfold draw_run.
  destruct (resolve_color_inv colors c (run_name run_data) Hinv) as (Hinv' & Hlog & _).
  destruct (resolve_color colors c (run_name run_data)) as [col c'].
  cbn [fst snd] in *.
  assert ((run_name run_data, col) ∈ color_log c') as Hin.
  { rewrite Hlog. apply elem_of_app. right. by apply list_elem_of_singleton. }
  set (x_data := x_data_of _ _ _).
  destruct (selected (smooth_method opts)) as [method|].
  - destruct (show_raw_and_smooth opts).
    + set (raw_line := Build_Line2D x_data (values run_data) "_nolegend_" col _ _).
      assert (line_of_log (color_log c') raw_line) as Hraw.
      { right. split; [done|]. by exists (run_name run_data). }
      pose proof (ax_plot_inv colors idx c' raw_line Hinv' Hraw) as Hinv1.
      pose proof (ax_plot_log idx c' raw_line) as Hlog1.
      destruct (ax_plot idx c' raw_line) as [c1 [e|]]; cbn [fst] in *; [done|].
      destruct (smooth_values _ _ _ _) as [arr|e]; [|done].
      apply ax_plot_inv; [done|]. left. by rewrite Hlog1.
    + destruct (smooth_values _ _ _ _) as [arr|e]; [|done].
      apply ax_plot_inv; [done | by left].
  - apply ax_plot_inv; [done | by left].
Qed.

(** Every record that the loop reaches adds its run name to the
    history, whether its curves can be drawn or not. *)
Lemma draw_run_log colors opts idx c run_data :
  (color_log (draw_run uninit colors opts idx c run_data).1).*1
  = (color_log c).*1 ++ [run_name run_data].
Proof.
  unfold draw_run.
  pose proof (resolve_color_inv colors c (run_name run_data)) as Hres.
  assert (color_log (resolve_color colors c (run_name run_data)).2
          = color_log c ++ [(run_name run_data, (resolve_color colors c (run_name run_data)).1)])
    as Hlog.
  { unfold resolve_color. by destruct (run_color_map c !! run_name run_data). }
  clear Hres.
  destruct (resolve_color colors c (run_name run_data)) as [col c'].
  cbn [fst snd] in *.
  assert ((color_log c').*1 = (color_log c).*1 ++ [run_name run_data]) as Hnames
    by (by rewrite Hlog, fmap_app).
  destruct (selected (smooth_method opts)) as [method|].
  - destruct (show_raw_and_smooth opts).
    + match goal with |- context [ax_plot idx c' ?l] =>
        pose proof (ax_plot_log idx c' l) as Hlog1;
        destruct (ax_plot idx c' l) as [c1 [e|]] end; cbn [fst] in *.
      { by rewrite Hlog1. }
      destruct (smooth_values _ _ _ _) as [arr|e]; cbn [fst].
      * by rewrite ax_plot_log, Hlog1.
      * by rewrite Hlog1.
    + destruct (smooth_values _ _ _ _) as [arr|e]; cbn [fst]; [|done].
      by rewrite ax_plot_log.
  - by rewrite ax_plot_log.
Qed.

Lemma draw_metric_inv colors opts n_cols c item :
  color_inv colors c →
  color_inv colors (draw_metric uninit colors opts n_cols c item).1.
Proof.
  intros Hinv. destruct item as [idx [metric_name runs_data]]. unfold draw_metric.
  apply (run_each_preserves (color_inv colors)).
  - intros s x. apply draw_run_inv.
  - by apply add_subplot_inv.
Qed.

Lemma draw_metric_log colors opts n_cols c item :
  ∃ p, p `prefix_of` (run_name <$> item.2.2) ∧
       (color_log (draw_metric uninit colors opts n_cols c item).1).*1
       = (color_log c).*1 ++ p ∧
       ((draw_metric uninit colors opts n_cols c item).2 = None →
        p = run_name <$> item.2.2).
Proof.
  destruct item as [idx [metric_name runs_data]]. unfold draw_metric. cbn [fst snd].
  destruct (run_each_trace (λ c, (color_log c).*1) (λ rd, [run_name rd])
              (draw_run uninit colors opts idx)) with
    (xs := runs_data) (s := add_subplot c (Z.of_nat idx `div` n_cols) (Z.of_nat idx `mod` n_cols))
    as (p & Hp & Hlog & Hfull).
  { intros s x. exists [run_name x]. split; [done|]. split; [apply draw_run_log | done]. }
  assert (runs_data ≫= (λ rd, [run_name rd]) = run_name <$> runs_data) as Heq.
  { clear. induction runs_data as [|rd rds IH]; [done|].
    rewrite bind_cons, fmap_cons, IH. done. }
  rewrite Heq in *. by exists p.
Qed.

End ComposerFacts.

Lemma imap_pair_bind {A B : Type} (g : A → list B) (l : list A) (f : nat → nat) :
  imap (λ i x, (f i, x)) l ≫= (λ item, g item.2) = l ≫= g.
Proof.
  revert f. induction l as [|x l IH]; intros f; [done|].
  rewrite imap_cons, !bind_cons. cbn [snd]. f_equal. apply (IH (f ∘ S)).
Qed.

(** What the invariant says of a canvas, in the words of the claim. *)
Lemma color_inv_elim colors c :
  color_inv colors c →
  (∀ run col1 col2,
     (run, col1) ∈ color_log c → (run, col2) ∈ color_log c → col1 = col2) ∧
  (∀ earlier run col later,
     color_log c = earlier ++ (run, col) :: later →
     run ∉ earlier.*1 →
     col = cycle_nth colors (distinct earlier.*1)) ∧
  (∀ idx line, (idx, line) ∈ lines c → line_of_log (color_log c) line).
Proof.
  intros [Hlm Hml Hit Hfirst Hlines]. split; [|split; [|done]].
  - intros run col1 col2 H1 H2. apply Hlm in H1, H2. congruence.
  - intros earlier run col later Hlog Hnew.
    specialize (Hfirst (length earlier) run col).
    rewrite Hlog, list_lookup_middle, take_app_length in Hfirst by done.
    by apply Hfirst.
Qed.

Section ComposerTheorems.

Variable uninit : nat → float.

(** The loops of [create_visualization] from the blank canvas. *)
Lemma draw_all_spec colors opts n_cols (data : gmap string (list SeriesRecord)) :
  let r := run_each (draw_metric uninit colors opts n_cols)
                    (imap pair (sorted_items data)) blank_canvas in
  color_inv colors r.1 ∧
  (color_log r.1).*1 `prefix_of` runs_in_order data ∧
  (r.2 = None → (color_log r.1).*1 = runs_in_order data).
Proof.
  intros r. split.
  - apply (run_each_preserves (color_inv colors)).
    + intros s x. apply draw_metric_inv.
    + apply color_inv_blank.
  - destruct (run_each_trace (λ c, (color_log c).*1)
                (λ item : nat * (string * list SeriesRecord), run_name <$> item.2.2)
                (draw_metric uninit colors opts n_cols)) with
      (xs := imap pair (sorted_items data)) (s := blank_canvas)
      as (p & Hp & Hlog & Hfull).
    { intros s x. apply draw_metric_log. }
    fold r in Hlog, Hfull. cbn [blank_canvas color_log fmap list_fmap app] in Hlog.
    assert (imap pair (sorted_items data)
              ≫= (λ item : nat * (string * list SeriesRecord), run_name <$> item.2.2)
            = sorted_items data ≫= (λ kv, run_name <$> kv.2)) as Himap
      by apply (imap_pair_bind (λ kv : string * list SeriesRecord, run_name <$> kv.2) _ id).
    rewrite Himap in Hp, Hfull.
    assert (sorted_items data ≫= (λ kv, run_name <$> kv.2) = runs_in_order data) as Heq.
    { unfold runs_in_order. generalize (sorted_items data). clear.
      intros l. induction l as [|kv l IH]; [done|].
      rewrite !bind_cons, fmap_app, IH. done. }
    rewrite Heq in *. rewrite Hlog. split; [done|]. intros Hnone. by apply Hfull.
Qed.

(** C6: in one execution of [create_visualization] the colors resolved
    for the records, one for every record reached, in the order of the
    drawing, make a function of the run identifier: an identifier met
    for the first time takes the next color of the cyclic palette, the
    one at the number of identifiers met before it, and every later
    record of the same identifier, in whatever subplot, resolves to the
    same color; every line drawn has the color resolved for its run. *)
Theorem create_visualization_colors prop_cycle
    (data : gmap string (list SeriesRecord)) opts :
  let colors := palette prop_cycle in
  let outcome := create_visualization uninit prop_cycle data opts in
  let c := canvas_of outcome in
  (color_log c).*1 `prefix_of` runs_in_order data ∧
  (∀ c', outcome = Saved c' → (color_log c').*1 = runs_in_order data) ∧
  (∀ run col1 col2,
     (run, col1) ∈ color_log c → (run, col2) ∈ color_log c → col1 = col2) ∧
  (∀ earlier run col later,
     color_log c = earlier ++ (run, col) :: later →
     run ∉ earlier.*1 →
     col = cycle_nth colors (distinct earlier.*1)) ∧
  (∀ idx line, (idx, line) ∈ lines c → line_of_log (color_log c) line).
Proof.
  intros colors outcome c.
  assert (color_inv colors c ∧ (color_log c).*1 `prefix_of` runs_in_order data ∧
          ∀ c', outcome = Saved c' → (color_log c').*1 = runs_in_order data)
    as (Hinv & Hpre & Hsaved).
  { subst c outcome. unfold create_visualization.
    pose proof (color_inv_blank colors) as Hblank.
    assert ((color_log blank_canvas).*1 `prefix_of` runs_in_order data) as Hnil
      by apply prefix_nil.
    repeat case_decide; cbn [canvas_of]; try (split; [done|]; split; [done|]; done).
    destruct (plt_figure _ _ _) as [figsize|e];
      cbn [canvas_of]; [|split; [done|]; split; [done|]; done].
    destruct (GridSpec _ _) as [e|];
      cbn [canvas_of]; [split; [done|]; split; [done|]; done|].
    pose proof (draw_all_spec colors opts
                  (Z.of_nat (size data) `min` max_cols opts)%Z data) as (Hi & Hp & Hf).
    fold colors.
    destruct (run_each _ _ blank_canvas) as [c1 [e|]]; cbn [canvas_of fst snd] in *.
    - split; [done|]. split; [done|]. intros c' [=].
    - split; [done|]. split; [done|]. intros c' [= <-]. by apply Hf. }
  split; [done|]. split; [done|]. by apply color_inv_elim.
Qed.

(** With a method selected and both curves asked for, a record whose
    smoothed values are as many as its x values is drawn as two lines:
    the raw one, thin, faint and without a legend entry, then the
    smoothed one under the run name, both in the color resolved for the
    run. *)
Lemma draw_run_show_both colors opts idx c run_data method arr :
  selected (smooth_method opts) = Some method →
  show_raw_and_smooth opts = true →
  smooth_values uninit (values run_data) method (smooth_window opts) = Ok arr →
  x_len (x_data_of (x_axis opts) (steps run_data) (walltimes run_data))
  = length (values run_data) →
  length arr = length (values run_data) →
  let x_data := x_data_of (x_axis opts) (steps run_data) (walltimes run_data) in
  let run_color := (resolve_color colors c (run_name run_data)).1 in
  let r := draw_run uninit colors opts idx c run_data in
  r.2 = None ∧
  lines r.1
  = lines c
    ++ [(idx, {| xdata := x_data; ydata := values run_data; label := "_nolegend_";
                 color := run_color; alpha := 0.35; linewidth := 1.0 |});
        (idx, {| xdata := x_data; ydata := arr; label := run_name run_data;
                 color := run_color; alpha := 0.9; linewidth := 1.6 |})] ∧
  in_legend "_nolegend_" = false.
Proof.
  intros Hsel Hboth Hsmooth Hx Harr x_data run_color r.
  subst r. unfold draw_run. fold x_data.
  pose proof (resolve_color_inv colors c (run_name run_data)) as Hres.
  assert (lines (resolve_color colors c (run_name run_data)).2 = lines c) as Hlines.
  { unfold resolve_color. by destruct (run_color_map c !! run_name run_data). }
  clear Hres. subst run_color.
  destruct (resolve_color colors c (run_name run_data)) as [col c'].
  cbn [fst snd] in *. rewrite Hsel, Hboth.
  rewrite ax_plot_Ok by done. cbv beta iota. rewrite Hsmooth.
  rewrite ax_plot_Ok by (cbn [xdata ydata]; unfold x_data; congruence).
  cbn [fst snd lines color]. split; [done|]. split; [|done].
  by rewrite Hlines, <- app_assoc.
Qed.

End ComposerTheorems.

(** C9: with the moving average selected and both curves asked for, a
    record of 3 observations and a window of 10 is left after its raw
    curve: the smoothed values are 10, the backend refuses to plot them
    against the 3 steps, and [create_visualization] ends with that
    error and one line where the claim has two. *)
Theorem create_visualization_show_both_ma_short :
  ∃ c, create_visualization (λ _, 0%float) None {["loss" := [Sample.loss3]]}
         (Sample.show_both "ma" 10)
       = Raised c (ValueError "x and y must have same first dimension") ∧
       lines c
       = [(0, {| xdata := Steps [0; 1; 2]%Z; ydata := [8; 4; 2]%float;
                 label := "_nolegend_"; color := "#1f77b4";
                 alpha := 0.35; linewidth := 1.0 |})].
Proof. eexists. split; [vm_compute; reflexivity|]. reflexivity. Qed.

(** The same record with the exponential average: two lines, the
    smoothed one alone in the legend. *)
Example create_visualization_show_both_ema :
  ∃ c, create_visualization (λ _, 0%float) None {["loss" := [Sample.loss3]]}
         (Sample.show_both "ema" 3)
       = Saved c ∧
       lines c
       = [(0, {| xdata := Steps [0; 1; 2]%Z; ydata := [8; 4; 2]%float;
                 label := "_nolegend_"; color := "#1f77b4";
                 alpha := 0.35; linewidth := 1.0 |});
          (0, {| xdata := Steps [0; 1; 2]%Z; ydata := [8; 6; 4]%float;
                 label := "run3"; color := "#1f77b4";
                 alpha := 0.9; linewidth := 1.6 |})] ∧
       legend_labels c 0 = ["run3"].
Proof. eexists. split; [vm_compute; reflexivity|]. split; reflexivity. Qed.

(** * The examples of the specification, in the small world *)

(** Scenario A: two files that sit in their root directories record
    the same tag; one metric with two records, each named by the dot. *)
Example scenario_A :
  ∃ rec1 rec3,
    (load_tb_data Sample.resolve Sample.read_events
       [Sample.run1; Sample.run3] ["logs/run1"; "logs/run3"] None).1 !! "loss"
    = Some [rec1; rec3] ∧
    run_name rec1 = "." ∧ run_name rec3 = "." ∧
    steps rec1 = [0; 3; 6; 9]%Z ∧ steps rec3 = [0; 1; 2]%Z.
Proof. do 2 eexists. split; [vm_compute; reflexivity|]. done. Qed.

(** Scenario B: with the bound 5 the steps 0, 3, 6, 9 are cut to 0, 3,
    and the tag whose steps are all beyond 5 is absent. *)
Example scenario_B :
  let data := (load_tb_data Sample.resolve Sample.read_events
                 [Sample.run1] ["logs"] (Some 5%Z)).1 in
  data !! "loss" = Some [Sample.loss1] ∧ data !! "eval" = None.
Proof. split; vm_compute; reflexivity. Qed.

(** Scenario D: wall times 100, 160, 220 give the hours 0, 1/60, 2/60. *)
Example scenario_D :
  x_data_of "walltime" [0; 1; 2]%Z [100; 160; 220]%float
  = Hours [0; 1 / 60; 2 / 60]%float.
Proof. vm_compute. reflexivity. Qed.

(** C2, in scenario B. *)
Lemma load_tb_data_max_step_witness :
  (load_tb_data Sample.resolve Sample.read_events
     [Sample.run1] ["logs"] (Some 5%Z)).1 !! "loss" = Some [Sample.loss1] ∧
  Forall (λ s, (s ≤ 5)%Z) (steps Sample.loss1).
Proof.
  split; [vm_compute; reflexivity|].
  apply (proj1 (load_tb_data_max_step Sample.resolve Sample.read_events
                  [Sample.run1] ["logs"] 5) "loss" [Sample.loss1] Sample.loss1).
  - vm_compute. reflexivity.
  - apply elem_of_cons. left. reflexivity.
Defined.

(** C3, for the record of the first file. *)
Lemma load_tb_data_run_identifier_witness :
  (load_tb_data Sample.resolve Sample.read_events
     [Sample.run1; Sample.run2; Sample.run3] ["logs"] (Some 5%Z)).1 !! "loss"
  = Some [Sample.loss1; Sample.loss3] ∧
  run_name Sample.loss1
  = run_identifier Sample.resolve (Sample.resolve <$> ["logs"]) Sample.run1.
Proof.
  split; [vm_compute; reflexivity|].
  apply (proj1 (proj2 (load_tb_data_run_identifier Sample.resolve Sample.read_events
                  [Sample.run1; Sample.run2; Sample.run3] ["logs"] (Some 5%Z)))
           "loss" [Sample.loss1; Sample.loss3] Sample.loss1).
  - vm_compute. reflexivity.
  - apply elem_of_cons. left. reflexivity.
Defined.

(** C7, for the record of the first file. *)
Lemma load_tb_data_series_invariant_witness :
  (load_tb_data Sample.resolve Sample.read_events
     [Sample.run1; Sample.run2; Sample.run3] ["logs"] (Some 5%Z)).1 !! "loss"
  = Some [Sample.loss1; Sample.loss3] ∧
  Sample.loss1 ∈ [Sample.loss1; Sample.loss3] ∧
  length (steps Sample.loss1) = length (values Sample.loss1) ∧
  length (values Sample.loss1) = length (walltimes Sample.loss1) ∧
  1 ≤ length (steps Sample.loss1).
Proof.
  split; [vm_compute; reflexivity|].
  split; [apply elem_of_cons; left; reflexivity|].
  apply (load_tb_data_series_invariant Sample.resolve Sample.read_events
           [Sample.run1; Sample.run2; Sample.run3] ["logs"] (Some 5%Z)
           "loss" [Sample.loss1; Sample.loss3] Sample.loss1).
  - vm_compute. reflexivity.
  - apply elem_of_cons. left. reflexivity.
Defined.


(** A file whose second tag cannot be read keeps the record of its
    first tag, and the failure is printed. *)
Example load_tb_data_partial_file :
  load_tb_data Sample.resolve Sample.read_events [Sample.run3] ["logs"] None
  = ({["loss" := [Sample.loss3]]},
     ["Loading: logs/run3/events.out.tfevents.3";
      "Failed to load file logs/run3/events.out.tfevents.3: Key grad was not found"]).
Proof. vm_compute. reflexivity. Qed.

(** C6, on two metrics that share a run: the run met first takes the
    first color of the palette in both subplots. *)
Example create_visualization_colors_example :
  color_log (canvas_of
    (create_visualization (λ _, 0%float) None
       {["loss" := [Sample.loss3; Sample.loss1]; "acc" := [Sample.loss1]]}
       (Sample.show_both "ema" 3)))
  = [("run1", "#1f77b4"); ("run3", "#ff7f0e"); ("run1", "#1f77b4")].
Proof. vm_compute. reflexivity. Qed.

(** * More on the smoothing engine *)

Lemma ema_from_take alpha prev vs k :
  ema_from alpha prev (take k vs) = take k (ema_from alpha prev vs).
Proof.
  revert prev k. induction vs as [|v vs IH]; intros prev k.
  - by destruct k.
  - destruct k as [|k]; [done|]. simpl. f_equal. apply IH.
Qed.

Lemma ema_spec_take alpha values k :
  ema_spec alpha (take k values) = take k (ema_spec alpha values).
Proof.
  destruct values as [|v0 vs]; [by destruct k|].
  destruct k as [|k]; [done|]. simpl. f_equal. apply ema_from_take.
Qed.

(** [smooth_values] never reads a cell of the array of
    [np.empty_like] before it has written it: whatever the fresh array
    holds, the result is the same. *)
Theorem smooth_values_ignores_fresh_memory (uninit1 uninit2 : nat → float)
    values method window :
  smooth_values uninit1 values method window
  = smooth_values uninit2 values method window.
Proof.
  destruct window as [w|]; [|done].
  destruct (decide (w ≤ 1)%Z) as [Hw|Hw].
  - unfold smooth_values. by rewrite !decide_True.
  - destruct (decide (method = "ma")) as [Hm|Hm].
    + unfold smooth_values. rewrite !(decide_False (P := (w ≤ 1)%Z)) by done.
      by rewrite !decide_True.
    + rewrite !smooth_values_ema by (lia || done). done.
Qed.

(** The moving average of a sequence that is not empty, for a window
    above 1: whenever the call returns, it returns as many values as
    the longer of the sequence and the window, the length of the input
    exactly when the window is not longer than it; and the call does
    return when the window is not longer than the sequence, [np.ones]
    makes the kernel and [float] converts the window. *)
Theorem smooth_values_ma_length_is_max (uninit : nat → float) values w :
  values ≠ [] → (1 < w)%Z →
  (∀ out, smooth_values uninit values "ma" (Some w) = Ok out →
          length out = length values `max` Z.to_nat w ∧
          (length out = length values ↔ (w ≤ Z.of_nat (length values))%Z)) ∧
  ((w ≤ Z.of_nat (length values))%Z →
   ∀ ones fw, np_ones w = Ok ones → float_of_int w = Ok fw →
   ∃ out, smooth_values uninit values "ma" (Some w) = Ok out ∧
          length out = length values).
Proof.
  intros Hne Hw. split.
  - intros out Hout.
    destruct (np_ones w) as [ones|e] eqn:Hones.
    2:{ revert Hout. unfold smooth_values.
        rewrite decide_False by lia. rewrite decide_True by done.
        by rewrite Hones. }
    destruct (float_of_int w) as [fw|e] eqn:Hfw.
    2:{ revert Hout. unfold smooth_values.
        rewrite decide_False by lia. rewrite decide_True by done.
        by rewrite Hones, Hfw. }
    destruct (smooth_values_ma_length uninit values w ones fw Hne Hw Hones Hfw)
      as (out' & Hout' & Hlen).
    rewrite Hout in Hout'. injection Hout' as <-. split; [done|]. lia.
  - intros Hfit ones fw Hones Hfw.
    destruct (smooth_values_ma_length uninit values w ones fw Hne Hw Hones Hfw)
      as (out & Hout & Hlen).
    exists out. split; [done|]. lia.
Qed.

Lemma smooth_values_ma_length_is_max_witness :
  [1; 2; 3]%float ≠ [] ∧ (1 < 2)%Z ∧
  (∀ out, smooth_values (λ _, 0%float) [1; 2; 3]%float "ma" (Some 2%Z) = Ok out →
          length out = 3 `max` Z.to_nat 2 ∧
          (length out = 3 ↔ (2 ≤ Z.of_nat 3)%Z)) ∧
  ((2 ≤ Z.of_nat 3)%Z →
   ∀ ones fw, np_ones 2 = Ok ones → float_of_int 2 = Ok fw →
   ∃ out, smooth_values (λ _, 0%float) [1; 2; 3]%float "ma" (Some 2%Z) = Ok out ∧
          length out = 3).
Proof.
  split; [discriminate|]. split; [lia|].
  apply (smooth_values_ma_length_is_max (λ _, 0%float) [1; 2; 3]%float 2);
    [discriminate | lia].
Defined.

(** On the empty sequence, with a window above 1: the moving average
    never returns, since [np.convolve] refuses an empty operand where
    [np.ones] and [float] have let the call come to it; every other
    method returns the empty sequence when [float] converts the
    window. *)
Theorem smooth_values_empty_input (uninit : nat → float) method w :
  (1 < w)%Z →
  (method = "ma" → ∃ e, smooth_values uninit [] method (Some w) = Raise e) ∧
  (method ≠ "ma" → ∀ fw, float_of_int w = Ok fw →
   smooth_values uninit [] method (Some w) = Ok []).
Proof.
  intros Hw. split.
  - intros ->. unfold smooth_values.
    rewrite decide_False by lia. rewrite decide_True by done.
    destruct (np_ones w) as [ones|e]; [|by exists e]. cbn [mbind py_bind].
    destruct (float_of_int w) as [fw|e]; [|by exists e]. cbn [mbind py_bind].
    unfold np_convolve_same. cbn [length]. rewrite decide_True by done. by eexists.
  - intros Hm fw Hfw. unfold smooth_values.
    rewrite decide_False by lia. rewrite decide_False by done.
    by rewrite Hfw.
Qed.

Lemma smooth_values_empty_input_witness :
  (1 < 10)%Z ∧
  (∃ e, smooth_values (λ _, 0%float) [] "ma" (Some 10%Z) = Raise e) ∧
  smooth_values (λ _, 0%float) [] "ema" (Some 10%Z) = Ok [].
Proof.
  split; [lia|].
  destruct (smooth_values_empty_input (λ _, 0%float) "ma" 10) as [Hma _]; [lia|].
  destruct (smooth_values_empty_input (λ _, 0%float) "ema" 10) as [_ Hema]; [lia|].
  split; [by apply Hma|]. apply (Hema ltac:(discriminate) 10%float). reflexivity.
Defined.

(** At the window 10 the exception of the moving average of the empty
    sequence is the [ValueError] of [np.convolve] for its first
    operand. *)
Example smooth_values_ma_empty_10 :
  smooth_values (λ _, 0%float) [] "ma" (Some 10%Z)
  = Raise (ValueError "a cannot be empty").
Proof. vm_compute. reflexivity. Qed.

(** The exponential average is causal: smoothing the first [k] values
    gives the first [k] smoothed values, so that observations appended
    to a run change none of the values smoothed before. *)
Theorem smooth_values_ema_prefix (uninit : nat → float) values method w k :
  (1 < w)%Z → method ≠ "ma" →
  smooth_values uninit (take k values) method (Some w)
  = (out ← smooth_values uninit values method (Some w); Ok (take k out)).
Proof.
  intros Hw Hm. rewrite !smooth_values_ema by done.
  destruct (float_of_int w) as [fw|e]; [|done]. cbn [mbind py_bind].
  by rewrite ema_spec_take.
Qed.

Lemma smooth_values_ema_prefix_witness :
  (1 < 3)%Z ∧ "ema" ≠ "ma" ∧
  smooth_values (λ _, 0%float) (take 2 [8; 4; 2]%float) "ema" (Some 3%Z)
  = (out ← smooth_values (λ _, 0%float) [8; 4; 2]%float "ema" (Some 3%Z);
     Ok (take 2 out)).
Proof.
  split; [lia|]. split; [discriminate|].
  apply smooth_values_ema_prefix; [lia | discriminate].
Defined.

(** * More on the series merger *)

Lemma run_each_app {A S : Type} (body : S → A → S * option exn) xs ys s :
  run_each body (xs ++ ys) s
  = match run_each body xs s with
    | (s', None) => run_each body ys s'
    | (s', Some e) => (s', Some e)
    end.
Proof.
  revert s. induction xs as [|x xs IH]; intros s; simpl; [done|].
  destruct (body s x) as [s' [e|]]; [done|]. apply IH.
Qed.

Lemma run_each_ext {A S : Type} (body1 body2 : S → A → S * option exn) xs s :
  (∀ x s', x ∈ xs → body1 s' x = body2 s' x) →
  run_each body1 xs s = run_each body2 xs s.
Proof.
  revert s. induction xs as [|x xs IH]; intros s Hext; simpl; [done|].
  rewrite Hext by (apply elem_of_cons; by left).
  destruct (body2 s x) as [s' [e|]]; [done|].
  apply IH. intros y s'' Hy. apply Hext. apply elem_of_cons. by right.
Qed.

Lemma run_each_load_tag_clean rn tb_file max_step scalar_tags
    (data : gmap string (list SeriesRecord)) :
  first_raise scalar_tags = None →
  (run_each (load_tag rn tb_file max_step) scalar_tags data).2 = None.
Proof.
  intros Hclean.
  destruct (run_each_load_tag rn tb_file max_step scalar_tags data) as (Herr & _).
  by rewrite Herr.
Qed.

Lemma records_of_append (data : gmap string (list SeriesRecord)) tag rec tag' :
  records_of (append_record data tag rec) tag'
  = records_of data tag' ++ (if decide (tag' = tag) then [rec] else []).
Proof.
  unfold records_of, append_record. case_decide as Htag.
  - subst tag'. by rewrite lookup_insert_eq.
  - rewrite lookup_insert_ne by done. by rewrite app_nil_r.
Qed.

(** One round of the loop over the tags adds to the records of a
    metric at their end, and only records of the file. *)
Lemma load_tag_records rn tb_file max_step (data : gmap string (list SeriesRecord))
    entry tag' :
  ∃ more,
    records_of (load_tag rn tb_file max_step data entry).1 tag'
    = records_of data tag' ++ more ∧
    Forall (λ rec, file_path rec = tb_file) more.
Proof.
  destruct entry as [tag [events|e]].
  - rewrite load_tag_Ok. cbn [fst].
    destruct (within_bound max_step events) as [|k kept].
    + exists []. by rewrite app_nil_r.
    + rewrite records_of_append. eexists. split; [done|].
      case_decide; repeat constructor.
  - exists []. by rewrite app_nil_r.
Qed.

Lemma run_each_load_tag_records rn tb_file max_step scalar_tags
    (data : gmap string (list SeriesRecord)) tag' :
  ∃ more,
    records_of (run_each (load_tag rn tb_file max_step) scalar_tags data).1 tag'
    = records_of data tag' ++ more ∧
    Forall (λ rec, file_path rec = tb_file) more.
Proof.
  revert data. induction scalar_tags as [|entry rest IH]; intros data.
  - exists []. by rewrite app_nil_r.
  - simpl. destruct (load_tag_records rn tb_file max_step data entry tag')
      as (more1 & Heq1 & Hall1).
    destruct (load_tag rn tb_file max_step data entry) as [data1 [e|]]; cbn [fst] in *.
    + by exists more1.
    + destruct (IH data1) as (more2 & Heq2 & Hall2).
      exists (more1 ++ more2). rewrite Heq2, Heq1, app_assoc. split; [done|].
      by apply Forall_app.
Qed.

(** The invariant of the collection: no metric with an empty list. *)
Lemma append_record_nonempty (data : gmap string (list SeriesRecord)) tag rec :
  (∀ t recs, data !! t = Some recs → recs ≠ []) →
  ∀ t recs, append_record data tag rec !! t = Some recs → recs ≠ [].
Proof.
  intros Hinv t recs. unfold append_record.
  destruct (decide (t = tag)) as [->|Hne].
  - rewrite lookup_insert_eq. intros [= <-]. by destruct (default [] (data !! tag)).
  - rewrite lookup_insert_ne by done. apply Hinv.
Qed.

Lemma load_tag_nonempty rn tb_file max_step (data : gmap string (list SeriesRecord)) entry :
  (∀ t recs, data !! t = Some recs → recs ≠ []) →
  ∀ t recs, (load_tag rn tb_file max_step data entry).1 !! t = Some recs → recs ≠ [].
Proof.
  intros Hinv. destruct entry as [tag [events|e]]; [|done].
  rewrite load_tag_Ok. cbn [fst].
  destruct (within_bound max_step events); [done|]. by apply append_record_nonempty.
Qed.

Section LoaderMore.

Variable resolve : string → list string.
Variable read_events : string → py_result (list (string * py_result (list ScalarEvent))).

Lemma load_files_cons base_paths max_step tb_file tb_files
    (st : gmap string (list SeriesRecord) * list string) :
  load_files resolve read_events base_paths max_step (tb_file :: tb_files) st
  = load_files resolve read_events base_paths max_step tb_files
      (load_file resolve read_events base_paths max_step st tb_file).
Proof. done. Qed.

Lemma load_files_prints base_paths max_step tb_files
    (st : gmap string (list SeriesRecord) * list string) :
  (load_files resolve read_events base_paths max_step tb_files st).2
  = st.2 ++ (tb_files ≫= lines_of_file read_events).
Proof.
  revert st. induction tb_files as [|f tb_files IH]; intros [data out].
  - simpl. by rewrite app_nil_r.
  - rewrite load_files_cons, IH.
    destruct (load_file_spec resolve read_events base_paths max_step data out f)
      as (Hout & _).
    rewrite Hout, bind_cons. unfold lines_of_file at 2. cbn [snd].
    by rewrite <- !app_assoc.
Qed.

Lemma load_file_records base_paths max_step
    (st : gmap string (list SeriesRecord) * list string) tb_file tag :
  ∃ more,
    records_of (load_file resolve read_events base_paths max_step st tb_file).1 tag
    = records_of st.1 tag ++ more ∧
    Forall (λ rec, file_path rec = tb_file) more.
Proof.
  destruct st as [data out]. unfold load_file.
  destruct (read_events tb_file) as [scalar_tags|e].
  - destruct (run_each_load_tag_records
                (compute_run_name resolve base_paths tb_file) tb_file max_step
                scalar_tags data tag) as (more & Heq & Hall).
    destruct (run_each _ scalar_tags data) as [data' [e|]]; by exists more.
  - exists []. cbn [fst]. by rewrite app_nil_r.
Qed.

Lemma load_files_records base_paths max_step tb_files
    (st : gmap string (list SeriesRecord) * list string) tag :
  ∃ more,
    records_of (load_files resolve read_events base_paths max_step tb_files st).1 tag
    = records_of st.1 tag ++ more ∧
    Forall (λ rec, file_path rec ∈ tb_files) more.
Proof.
  revert st. induction tb_files as [|f tb_files IH]; intros st.
  - exists []. simpl. by rewrite app_nil_r.
  - rewrite load_files_cons.
    destruct (IH (load_file resolve read_events base_paths max_step st f))
      as (more2 & Heq2 & Hall2).
    destruct (load_file_records base_paths max_step st f tag) as (more1 & Heq1 & Hall1).
    exists (more1 ++ more2). rewrite Heq2, Heq1, app_assoc. split; [done|].
    apply Forall_app. split.
    + eapply Forall_impl; [exact Hall1|]. intros rec ->. apply elem_of_cons. by left.
    + eapply Forall_impl; [exact Hall2|]. intros rec Hin. apply elem_of_cons. by right.
Qed.

Lemma load_file_nonempty base_paths max_step
    (st : gmap string (list SeriesRecord) * list string) tb_file :
  (∀ t recs, st.1 !! t = Some recs → recs ≠ []) →
  ∀ t recs,
    (load_file resolve read_events base_paths max_step st tb_file).1 !! t = Some recs →
    recs ≠ [].
Proof.
  destruct st as [data out]. intros Hinv. unfold load_file.
  destruct (read_events tb_file) as [scalar_tags|e]; [|done].
  pose proof (run_each_preserves
    (λ d : gmap string (list SeriesRecord), ∀ t recs, d !! t = Some recs → recs ≠ [])
    (load_tag (compute_run_name resolve base_paths tb_file) tb_file max_step)
    (λ s x, load_tag_nonempty _ _ _ s x) scalar_tags data Hinv) as Hrun.
  by destruct (run_each _ scalar_tags data) as [data' [e|]].
Qed.

(** What [load_tb_data] prints: for every file, in the order of the
    list, the line that announces it, followed by the line of its
    failure exactly when reading it raises. *)
Theorem load_tb_data_prints tb_files base_directories max_step :
  (load_tb_data resolve read_events tb_files base_directories max_step).2
  = tb_files ≫= lines_of_file read_events.
Proof. unfold load_tb_data. by rewrite load_files_prints. Qed.

(** No metric of the collection that [load_tb_data] returns has an
    empty list of records: the collection is empty when nothing is
    stored. *)
Theorem load_tb_data_no_empty_metric tb_files base_directories max_step tag recs :
  (load_tb_data resolve read_events tb_files base_directories max_step).1 !! tag
  = Some recs →
  recs ≠ [].
Proof.
  unfold load_tb_data, load_files.
  assert (∀ l (st : gmap string (list SeriesRecord) * list string),
            (∀ t recs, st.1 !! t = Some recs → recs ≠ []) →
            ∀ t recs,
              (foldl (load_file resolve read_events (resolve <$> base_directories) max_step)
                     st l).1 !! t = Some recs → recs ≠ []) as Hfold.
  { intros l. induction l as [|f l IH]; intros st Hinv; [done|].
    simpl. apply IH. by apply load_file_nonempty. }
  apply Hfold. intros t recs' H. cbn [fst] in H. by rewrite lookup_empty in H.
Qed.

Lemma load_tb_data_unreadable tb_files base_directories max_step :
  (∀ tb_file, tb_file ∈ tb_files → ∃ e, read_events tb_file = Raise e) →
  (load_tb_data resolve read_events tb_files base_directories max_step).1 = ∅.
Proof.
  unfold load_tb_data, load_files. generalize (@nil string).
  induction tb_files as [|f tb_files IH]; intros out Hall; [done|].
  cbn [foldl]. destruct (Hall f) as [e He]; [apply elem_of_cons; by left|].
  unfold load_file at 2. rewrite He.
  apply IH. intros f' Hf'. apply Hall. apply elem_of_cons. by right.
Qed.

(** Files that cannot be opened leave the collection empty. *)
Theorem load_tb_data_all_unreadable tb_files base_directories max_step :
  (∀ tb_file, tb_file ∈ tb_files → ∃ e, read_events tb_file = Raise e) →
  (load_tb_data resolve read_events tb_files base_directories max_step).1 = ∅.
Proof. apply load_tb_data_unreadable. Qed.

Lemma load_tb_data_parallel tb_files base_directories max_step :
  parallel_records (load_tb_data resolve read_events tb_files base_directories max_step).1.
Proof.
  intros tag recs rec Hrecs Hin.
  destruct (load_tb_data_stored resolve read_events tb_files base_directories
              max_step tag rec)
    as (_ & scalar_tags & events & _ & _ & _ & -> & -> & -> & _).
  { by exists recs. }
  by rewrite !length_fmap.
Qed.

(** The records of later files come after those of earlier files: the
    records that a metric has after the files [l1 ++ l2] are those it
    has after [l1], followed by records of files of [l2]. *)
Theorem load_tb_data_file_order l1 l2 base_directories max_step tag :
  ∃ more,
    records_of (load_tb_data resolve read_events (l1 ++ l2) base_directories max_step).1 tag
    = records_of (load_tb_data resolve read_events l1 base_directories max_step).1 tag
      ++ more ∧
    Forall (λ rec, file_path rec ∈ l2) more.
Proof.
  unfold load_tb_data. rewrite load_files_app. apply load_files_records.
Qed.

Lemma load_file_keeps base_paths max_step
    (st : gmap string (list SeriesRecord) * list string) tb_file before tag events after :
  read_events tb_file = Ok (before ++ (tag, Ok events) :: after) →
  first_raise before = None →
  within_bound max_step events ≠ [] →
  stored (load_file resolve read_events base_paths max_step st tb_file).1 tag
    {| steps := step <$> within_bound max_step events;
       values := value <$> within_bound max_step events;
       walltimes := wall_time <$> within_bound max_step events;
       run_name := compute_run_name resolve base_paths tb_file;
       file_path := tb_file |}.
Proof.
  intros Hread Hclean Hkept. destruct st as [data out]. unfold load_file.
  rewrite Hread, run_each_app.
  pose proof (run_each_load_tag_clean (compute_run_name resolve base_paths tb_file)
                tb_file max_step before data Hclean) as Hnone.
  destruct (run_each _ before data) as [data1 e1]. cbn [snd] in Hnone. subst e1.
  cbn [run_each].
  pose proof (load_tag_stored (compute_run_name resolve base_paths tb_file)
                tb_file max_step data1 tag events tag) as Hst.
  rewrite load_tag_Ok in *. cbn [fst] in Hst.
  set (data2 := match within_bound max_step events with [] => data1 | _ => _ end) in *.
  destruct (run_each_load_tag (compute_run_name resolve base_paths tb_file)
              tb_file max_step after data2) as (_ & Hext & _).
  assert (stored (run_each (load_tag (compute_run_name resolve base_paths tb_file)
                              tb_file max_step) after data2).1 tag
            {| steps := step <$> within_bound max_step events;
               values := value <$> within_bound max_step events;
               walltimes := wall_time <$> within_bound max_step events;
               run_name := compute_run_name resolve base_paths tb_file;
               file_path := tb_file |}) as Hfinal.
  { eapply extends_stored; [exact Hext|]. apply Hst. by right. }
  by destruct (run_each _ after data2) as [data3 [e|]].
Qed.

(** Nothing within the bound is lost: a tag of a file of the list, read
    before any failure of that file, with an observation within the
    bound, has its record in the collection. *)
Theorem load_tb_data_keeps_every_series tb_files base_directories max_step
    tb_file before tag events after :
  tb_file ∈ tb_files →
  read_events tb_file = Ok (before ++ (tag, Ok events) :: after) →
  first_raise before = None →
  within_bound max_step events ≠ [] →
  stored (load_tb_data resolve read_events tb_files base_directories max_step).1 tag
    {| steps := step <$> within_bound max_step events;
       values := value <$> within_bound max_step events;
       walltimes := wall_time <$> within_bound max_step events;
       run_name := compute_run_name resolve (resolve <$> base_directories) tb_file;
       file_path := tb_file |}.
Proof.
  intros Hin Hread Hclean Hkept.
  apply list_elem_of_split in Hin as (l1 & l2 & ->).
  unfold load_tb_data. rewrite load_files_app, load_files_cons.
  eapply extends_stored; [apply load_files_extends|].
  by apply (load_file_keeps _ _ _ _ before tag events after).
Qed.

Lemma within_bound_all (M : Z) events :
  (∀ e, e ∈ events → (step e ≤ M)%Z) → within_bound (Some M) events = events.
Proof.
  unfold within_bound. induction events as [|e events IH]; intros Hall; [done|].
  rewrite filter_cons, decide_True by (apply Hall, elem_of_cons; by left).
  f_equal. apply IH. intros e' He'. apply Hall, elem_of_cons. by right.
Qed.

(** A bound that no step of the files exceeds cuts nothing: the result
    is the one without a bound. *)
Theorem load_tb_data_bound_beyond_steps tb_files base_directories (M : Z) :
  (∀ tb_file scalar_tags tag events e,
     tb_file ∈ tb_files → read_events tb_file = Ok scalar_tags →
     (tag, Ok events) ∈ scalar_tags → e ∈ events → (step e ≤ M)%Z) →
  load_tb_data resolve read_events tb_files base_directories (Some M)
  = load_tb_data resolve read_events tb_files base_directories None.
Proof.
  unfold load_tb_data. generalize (∅ : gmap string (list SeriesRecord), @nil string).
  induction tb_files as [|f tb_files IH]; intros st Hall; [done|].
  rewrite !load_files_cons.
  assert (load_file resolve read_events (resolve <$> base_directories) (Some M) st f
          = load_file resolve read_events (resolve <$> base_directories) None st f) as ->.
  { destruct st as [data out]. unfold load_file.
    destruct (read_events f) as [scalar_tags|e] eqn:Hread; [|done].
    rewrite (run_each_ext _
               (load_tag (compute_run_name resolve (resolve <$> base_directories) f) f None));
      [done|].
    intros [tag [events|e]] data' Hentry; [|done].
    rewrite !load_tag_Ok. rewrite within_bound_all; [done|].
    intros e He. eapply (Hall f scalar_tags tag events e); try done.
    apply elem_of_cons. by left. }
  apply IH. intros f' tags tag events e Hf'. apply Hall. apply elem_of_cons. by right.
Qed.

End LoaderMore.

(** * The run locator *)

Section LocatorFacts.

Variable path_exists : string → bool.
Variable os_walk : string → list (string * list string * list string).

Lemma collect_files_spec root files tb_files :
  collect_files root files tb_files
  = tb_files ++ (os_path_join root <$> filter (λ file, is_event_file file) files).
Proof.
  revert tb_files. induction files as [|file files IH]; intros tb_files.
  - simpl. by rewrite app_nil_r.
  - unfold collect_files in *. cbn [foldl]. rewrite IH, filter_cons.
    destruct (is_event_file file) eqn:Hfile.
    + rewrite decide_True by exact I. by rewrite fmap_cons, <- app_assoc.
    + rewrite decide_False by (intros []). done.
Qed.

Lemma find_in_directory_spec (st : list string * list string) directory :
  find_in_directory path_exists os_walk st directory
  = (st.1 ++ event_files_below path_exists os_walk directory,
     st.2 ++ warning_of path_exists directory).
Proof.
  destruct st as [tb_files out].
  unfold find_in_directory, event_files_below, warning_of.
  destruct (path_exists directory); cbn [fst snd]; [|by rewrite app_nil_r].
  rewrite app_nil_r. f_equal.
  revert tb_files. induction (os_walk directory) as [|[[root dirs] files] walk IH];
    intros tb_files.
  - simpl. by rewrite app_nil_r.
  - cbn [foldl]. rewrite IH, collect_files_spec, bind_cons. cbn [fst snd].
    by rewrite app_assoc.
Qed.

Lemma find_tb_files_fold directories (st : list string * list string) :
  foldl (find_in_directory path_exists os_walk) st directories
  = (st.1 ++ (directories ≫= event_files_below path_exists os_walk),
     st.2 ++ (directories ≫= warning_of path_exists)).
Proof.
  revert st. induction directories as [|d directories IH]; intros st.
  - simpl. rewrite !app_nil_r. by destruct st.
  - cbn [foldl]. rewrite IH, find_in_directory_spec, !bind_cons. cbn [fst snd].
    by rewrite <- !app_assoc.
Qed.

Lemma find_tb_files_closed directories :
  find_tb_files path_exists os_walk directories
  = (directories ≫= event_files_below path_exists os_walk,
     directories ≫= warning_of path_exists).
Proof. unfold find_tb_files. by rewrite find_tb_files_fold. Qed.

(** [find_tb_files] goes through the directories in the order of the
    list: the files are those found below each directory that exists,
    in the order of the walk, and the lines printed are the warnings
    for the directories that do not exist; so that the result for two
    lists put end to end is the two results put end to end. *)
Theorem find_tb_files_by_directory directories :
  find_tb_files path_exists os_walk directories
  = (directories ≫= event_files_below path_exists os_walk,
     directories ≫= warning_of path_exists).
Proof. apply find_tb_files_closed. Qed.

Lemma find_tb_files_mem directories path :
  path ∈ (find_tb_files path_exists os_walk directories).1
  ↔ ∃ directory root dirs files file,
      directory ∈ directories ∧ path_exists directory = true ∧
      (root, dirs, files) ∈ os_walk directory ∧
      file ∈ files ∧ is_event_file file = true ∧
      path = os_path_join root file.
Proof.
  unfold find_tb_files. rewrite find_tb_files_fold. cbn [fst app].
  rewrite list_elem_of_bind. split.
  - intros (directory & Hpath & Hdir). unfold event_files_below in Hpath.
    destruct (path_exists directory) eqn:Hex; [|by apply elem_of_nil in Hpath].
    apply list_elem_of_bind in Hpath as ([[root dirs] files] & Hpath & Hentry).
    cbn [fst snd] in Hpath.
    apply list_elem_of_fmap in Hpath as (file & -> & Hfile).
    apply list_elem_of_filter in Hfile as [Hevent Hfile].
    exists directory, root, dirs, files, file.
    repeat (split; [done|]). split; [|done]. by apply Is_true_true.
  - intros (directory & root & dirs & files & file & Hdir & Hex & Hentry & Hfile & Hevent & ->).
    exists directory. split; [|done]. unfold event_files_below. rewrite Hex.
    apply list_elem_of_bind. exists (root, dirs, files). split; [|done].
    cbn [fst snd]. apply list_elem_of_fmap. exists file. split; [done|].
    apply list_elem_of_filter. split; [by apply Is_true_true | done].
Qed.

(** A path is returned exactly when it is [os.path.join(root, file)]
    for a file of the walk of a directory of the list that exists,
    whose name starts with the marker of event files. *)
Theorem find_tb_files_elem directories path :
  path ∈ (find_tb_files path_exists os_walk directories).1
  ↔ ∃ directory root dirs files file,
      directory ∈ directories ∧ path_exists directory = true ∧
      (root, dirs, files) ∈ os_walk directory ∧
      file ∈ files ∧ is_event_file file = true ∧
      path = os_path_join root file.
Proof. apply find_tb_files_mem. Qed.

(** A directory that does not exist gives its warning and no file:
    the files found are those found without it. *)
Theorem find_tb_files_missing_directory before directory after :
  path_exists directory = false →
  (find_tb_files path_exists os_walk (before ++ directory :: after)).1
  = (find_tb_files path_exists os_walk (before ++ after)).1 ∧
  ("Warning: directory does not exist: " +:+ directory)
  ∈ (find_tb_files path_exists os_walk (before ++ directory :: after)).2.
Proof.
  intros Hex. rewrite !find_tb_files_closed. cbn [fst snd].
  rewrite !bind_app, !bind_cons.
  unfold event_files_below at 2. unfold warning_of at 2. rewrite Hex.
  split; [done|].
  apply elem_of_app. right. apply elem_of_app. left. apply elem_of_cons. by left.
Qed.

End LocatorFacts.

Lemma string_app_assoc (s1 s2 s3 : string) :
  (s1 +:+ s2) +:+ s3 = s1 +:+ (s2 +:+ s3).
Proof.
  induction s1 as [|ch s1 IH]; [done|].
  change (String ch ((s1 +:+ s2) +:+ s3) = String ch (s1 +:+ (s2 +:+ s3))).
  by rewrite IH.
Qed.

(** Every event file has a name that does not start with the
    separator, so that [os.path.join] keeps the directory: the path
    ends with the name of the file. *)
Lemma os_path_join_event_file root file :
  is_event_file file = true →
  ∃ dir, os_path_join root file = dir +:+ file.
Proof.
  intros Hevent. unfold os_path_join.
  assert (String.prefix "/" file = false) as ->.
  { destruct file as [|ch file]; [done|].
    unfold is_event_file in Hevent. apply String.prefix_correct in Hevent.
    cbn [String.length String.substring] in Hevent.
    injection Hevent as -> _. reflexivity. }
  case_decide; [by exists ""|].
  destruct (ends_with_sep root); [by exists root|].
  exists (root +:+ "/"). by rewrite string_app_assoc.
Qed.

Section LocatorNames.

Variable path_exists : string → bool.
Variable os_walk : string → list (string * list string * list string).

(** Every path that [find_tb_files] returns ends with the name of a
    file that starts with the marker of event files. *)
Theorem find_tb_files_event_names directories path :
  path ∈ (find_tb_files path_exists os_walk directories).1 →
  ∃ dir file, path = dir +:+ file ∧ is_event_file file = true.
Proof.
  intros Hin. apply find_tb_files_mem in Hin
    as (directory & root & dirs & files & file & _ & _ & _ & _ & Hevent & ->).
  destruct (os_path_join_event_file root file Hevent) as [dir Hdir].
  by exists dir, file.
Qed.

End LocatorNames.

(** * More on the figure composer *)

Lemma string_leb_trans (s1 s2 s3 : string) :
  String.leb s1 s2 = true → String.leb s2 s3 = true → String.leb s1 s3 = true.
Proof.
  unfold String.leb. revert s2 s3.
  induction s1 as [|c1 s1 IH]; intros [|c2 s2] [|c3 s3]; simpl; try done.
  unfold Ascii.compare.
  destruct (N.compare_spec (Ascii.N_of_ascii c1) (Ascii.N_of_ascii c2)) as [H12|H12|H12];
    destruct (N.compare_spec (Ascii.N_of_ascii c2) (Ascii.N_of_ascii c3)) as [H23|H23|H23];
    destruct (N.compare_spec (Ascii.N_of_ascii c1) (Ascii.N_of_ascii c3)) as [H13|H13|H13];
    try done; try lia.
  apply IH.
Qed.

#[local] Instance item_le_total : Total item_le.
Proof.
  intros a b. unfold item_le.
  destruct (String.leb_total a.1 b.1) as [H|H]; rewrite H; [by left | by right].
Qed.

#[local] Instance item_le_trans : Transitive item_le.
Proof.
  intros a b c. unfold item_le. intros Hab Hbc.
  apply Is_true_true in Hab, Hbc. apply Is_true_true.
  by eapply string_leb_trans.
Qed.

Lemma elem_of_sorted_items (data : gmap string (list SeriesRecord)) tag recs :
  (tag, recs) ∈ sorted_items data ↔ data !! tag = Some recs.
Proof.
  unfold sorted_items. rewrite merge_sort_Permutation. apply elem_of_map_to_list.
Qed.

Lemma length_sorted_items (data : gmap string (list SeriesRecord)) :
  length (sorted_items data) = size data.
Proof.
  unfold sorted_items. rewrite merge_sort_Permutation. apply length_map_to_list.
Qed.

(** [sorted(data.items())] has every metric of the collection once,
    by increasing name: each metric has one subplot, and the subplots
    follow the order of the names. *)
Theorem sorted_items_sorted (data : gmap string (list SeriesRecord)) :
  sorted_items data ≡ₚ map_to_list data ∧
  NoDup (sorted_items data).*1 ∧
  StronglySorted (λ a b, String.leb a.1 b.1 = true) (sorted_items data).
Proof.
  split; [apply merge_sort_Permutation|]. split.
  - unfold sorted_items. rewrite merge_sort_Permutation. apply NoDup_fst_map_to_list.
  - pose proof (StronglySorted_merge_sort item_le (map_to_list data)) as Hs.
    unfold sorted_items. induction Hs as [|a l Hs IH Hall]; constructor; [done|].
    eapply Forall_impl; [exact Hall|]. intros b Hb. by apply Is_true_true.
Qed.

(** A loop whose rounds all end without an exception, each adding its
    contribution to a trace of the state, ends without one and adds
    all the contributions. *)
Lemma run_each_trace_ok {A S B : Type} (t : S → list B) (contrib : A → list B)
    (body : S → A → S * option exn) xs s :
  (∀ s' x, x ∈ xs → (body s' x).2 = None ∧ t (body s' x).1 = t s' ++ contrib x) →
  (run_each body xs s).2 = None ∧
  t (run_each body xs s).1 = t s ++ (xs ≫= contrib).
Proof.
  revert s. induction xs as [|x xs IH]; intros s Hbody.
  - simpl. by rewrite app_nil_r.
  - cbn [run_each]. destruct (Hbody s x) as [Hnone Ht]; [apply elem_of_cons; by left|].
    destruct (body s x) as [s' e]. cbn [fst snd] in *. subst e.
    destruct (IH s') as [Hnone' Ht'].
    { intros s'' y Hy. apply Hbody. apply elem_of_cons. by right. }
    split; [done|]. by rewrite Ht', Ht, bind_cons, app_assoc.
Qed.

Lemma resolve_color_figure colors c run :
  lines (resolve_color colors c run).2 = lines c ∧
  subplots (resolve_color colors c run).2 = subplots c.
Proof. unfold resolve_color. by destruct (run_color_map c !! run). Qed.

Lemma ax_plot_subplots idx c line : subplots (ax_plot idx c line).1 = subplots c.
Proof. unfold ax_plot. by case_decide. Qed.

Lemma x_len_x_data_of x_axis steps walltimes :
  x_len (x_data_of x_axis steps walltimes)
  = if decide (x_axis = "walltime") then length walltimes else length steps.
Proof.
  unfold x_data_of. case_decide; [|done].
  destruct walltimes; [done|]. cbn [x_len]. by rewrite length_fmap.
Qed.

Lemma float_sub_diag (x : float) : finite_float x → (x - x)%float = 0%float.
Proof.
  intros Hfin. apply FloatAxioms.Prim2SF_inj. rewrite FloatAxioms.sub_spec.
  unfold finite_float in Hfin. unfold FloatAxioms.SF64sub.
  destruct (Prim2SF x) as [s|s| |s m e]; try done.
  - by destruct s.
  - unfold SFsub. rewrite Z.sub_diag. reflexivity.
Qed.

(** In wall-clock mode the x values of a record whose first time is a
    finite number start at 0 and are as many as the times; in every
    other mode they are the steps. *)
Theorem x_data_of_walltime x_axis steps w0 walltimes :
  finite_float w0 →
  x_data_of x_axis steps (w0 :: walltimes)
  = if decide (x_axis = "walltime")
    then Hours (0%float :: ((λ w, (w - w0) / 3600)%float <$> walltimes))
    else Steps steps.
Proof.
  intros Hfin. unfold x_data_of. case_decide; [|done].
  rewrite fmap_cons, float_sub_diag by done. reflexivity.
Qed.

Section ComposerMore.

Variable uninit : nat → float.

Lemma draw_run_subplots colors opts idx c run_data :
  subplots (draw_run uninit colors opts idx c run_data).1 = subplots c.
Proof.
  unfold draw_run.
  destruct (resolve_color_figure colors c (run_name run_data)) as [_ Hsub].
  destruct (resolve_color colors c (run_name run_data)) as [col c']. cbn [snd] in Hsub.
  destruct (selected (smooth_method opts)) as [method|].
  - destruct (show_raw_and_smooth opts).
    + match goal with |- context [ax_plot idx c' ?l] =>
        pose proof (ax_plot_subplots idx c' l) as Hsub1;
        destruct (ax_plot idx c' l) as [c1 [e|]] end; cbn [fst] in *.
      { by rewrite Hsub1. }
      destruct (smooth_values _ _ _ _) as [arr|e]; cbn [fst].
      * by rewrite ax_plot_subplots, Hsub1.
      * by rewrite Hsub1.
    + destruct (smooth_values _ _ _ _) as [arr|e]; cbn [fst]; [|done].
      by rewrite ax_plot_subplots.
  - by rewrite ax_plot_subplots.
Qed.

(** Whether its runs can be drawn or not, a metric adds its cell to the
    subplots, and nothing else. *)
Lemma draw_metric_subplots colors opts n_cols c item :
  subplots (draw_metric uninit colors opts n_cols c item).1
  = subplots c ++ [cell_of n_cols item.1].
Proof.
  destruct item as [idx [metric_name runs_data]]. unfold draw_metric. cbn [fst].
  assert (∀ runs c0,
            subplots (run_each (draw_run uninit colors opts idx) runs c0).1
            = subplots c0) as Hruns.
  { intros runs. induction runs as [|rd runs IH]; intros c0; [done|].
    simpl. pose proof (draw_run_subplots colors opts idx c0 rd) as Hrd.
    destruct (draw_run uninit colors opts idx c0 rd) as [c1 [e|]]; cbn [fst] in *;
      [done|]. by rewrite IH. }
  by rewrite Hruns.
Qed.

(** A record that can be drawn is drawn without an exception, as the
    curves of its mode. *)
Lemma draw_run_drawable colors opts idx c run_data :
  drawable uninit opts run_data →
  (draw_run uninit colors opts idx c run_data).2 = None ∧
  curve_of_line <$> lines (draw_run uninit colors opts idx c run_data).1
  = (curve_of_line <$> lines c) ++ curves_of uninit opts idx run_data.
Proof.
  intros (Hsteps & Hwall & Hsmooth). unfold draw_run, curves_of, smoothed_of.
  destruct (resolve_color_figure colors c (run_name run_data)) as [Hlines _].
  destruct (resolve_color colors c (run_name run_data)) as [col c']. cbn [snd] in Hlines.
  assert (x_len (x_data_of (x_axis opts) (steps run_data) (walltimes run_data))
          = length (values run_data)) as Hx.
  { rewrite x_len_x_data_of. by case_decide. }
  destruct (selected (smooth_method opts)) as [method|].
  - destruct Hsmooth as (arr & Harr & Hlen). rewrite Harr.
    destruct (show_raw_and_smooth opts).
    + rewrite ax_plot_Ok by done. cbv beta iota.
      rewrite ax_plot_Ok by (cbn [xdata ydata]; congruence).
      cbn [fst snd lines]. split; [done|].
      by rewrite Hlines, !fmap_app, <- app_assoc.
    + rewrite ax_plot_Ok by (cbn [xdata ydata]; congruence).
      cbn [fst snd lines]. split; [done|]. by rewrite Hlines, fmap_app.
  - rewrite ax_plot_Ok by done.
    cbn [fst snd lines]. split; [done|]. by rewrite Hlines, fmap_app.
Qed.

Lemma draw_metric_drawable colors opts n_cols c item :
  (∀ run_data, run_data ∈ item.2.2 → drawable uninit opts run_data) →
  (draw_metric uninit colors opts n_cols c item).2 = None ∧
  curve_of_line <$> lines (draw_metric uninit colors opts n_cols c item).1
  = (curve_of_line <$> lines c) ++ (item.2.2 ≫= curves_of uninit opts item.1).
Proof.
  destruct item as [idx [metric_name runs_data]]. cbn [fst snd]. intros Hall.
  unfold draw_metric.
  destruct (run_each_trace_ok (λ c, curve_of_line <$> lines c)
              (curves_of uninit opts idx) (draw_run uninit colors opts idx) runs_data
              (add_subplot c (Z.of_nat idx `div` n_cols) (Z.of_nat idx `mod` n_cols)))
    as [Hnone Hlines].
  { intros c' rd Hrd. apply draw_run_drawable. by apply Hall. }
  split; [done|]. exact Hlines.
Qed.

Lemma imap_pair_index {A B : Type} (g : nat → B) (l : list A) (k : nat) :
  imap (λ i x, (k + i, x)) l ≫= (λ item, [g item.1]) = g <$> seq k (length l).
Proof.
  revert k. induction l as [|x l IH]; intros k; [done|].
  rewrite imap_cons, bind_cons. cbn [length seq fst]. rewrite fmap_cons, Nat.add_0_r.
  cbn [app]. f_equal. rewrite <- (IH (S k)). f_equal.
  apply imap_ext. intros i y _. cbn. f_equal. lia.
Qed.

(** The subplots added by the loop over the metrics: the cells of the
    indices, in order, as far as the loop goes. *)
Lemma draw_all_subplots colors opts n_cols (data : gmap string (list SeriesRecord)) :
  let r := run_each (draw_metric uninit colors opts n_cols)
                    (imap pair (sorted_items data)) blank_canvas in
  subplots r.1 `prefix_of` (cell_of n_cols <$> seq 0 (size data)) ∧
  (r.2 = None → subplots r.1 = cell_of n_cols <$> seq 0 (size data)).
Proof.
  intros r.
  destruct (run_each_trace subplots
              (λ item : nat * (string * list SeriesRecord), [cell_of n_cols item.1])
              (draw_metric uninit colors opts n_cols)) with
    (xs := imap pair (sorted_items data)) (s := blank_canvas)
    as (p & Hp & Hsub & Hfull).
  { intros s x. exists [cell_of n_cols x.1]. split; [done|].
    split; [apply draw_metric_subplots | done]. }
  fold r in Hsub, Hfull. cbn [blank_canvas subplots app] in Hsub.
  pose proof (imap_pair_index (cell_of n_cols) (sorted_items data) 0) as Hidx.
  cbn [Nat.add] in Hidx. rewrite length_sorted_items in Hidx.
  assert (imap pair (sorted_items data)
            ≫= (λ item : nat * (string * list SeriesRecord), [cell_of n_cols item.1])
          = cell_of n_cols <$> seq 0 (size data)) as Heq by exact Hidx.
  rewrite Heq in *. rewrite Hsub. split; [done|]. intros Hnone. by apply Hfull.
Qed.

(** The layout of a collection that is not empty, for at least one
    column. *)
Lemma layout_positive (n max_cols : Z) :
  (1 ≤ n)%Z → (1 ≤ max_cols)%Z →
  let n_cols := (n `min` max_cols)%Z in
  let n_rows := ((n + n_cols - 1) `div` n_cols)%Z in
  (1 ≤ n_cols)%Z ∧ (1 ≤ n_rows)%Z ∧ (n ≤ n_rows * n_cols)%Z ∧
  ((n_rows - 1) * n_cols < n)%Z.
Proof.
  intros Hn Hc n_cols n_rows. assert (1 ≤ n_cols)%Z as Hcols by (unfold n_cols; lia).
  pose proof (Z.div_mod (n + n_cols - 1) n_cols ltac:(lia)) as Hdm.
  pose proof (Z.mod_pos_bound (n + n_cols - 1) n_cols ltac:(lia)) as Hmod.
  fold n_rows in Hdm. split; [done|]. nia.
Qed.

(** When [plt.figure] accepts the size of the figure, every record
    can be drawn and there is at least one column, the loops end
    without an exception, having drawn the curves of all records in
    order and one subplot for each metric. *)
Lemma create_visualization_drawable prop_cycle
    (data : gmap string (list SeriesRecord)) opts :
  data ≠ ∅ → (1 ≤ max_cols opts)%Z → figure_accepted opts (size data) →
  (∀ tag recs run_data,
     data !! tag = Some recs → run_data ∈ recs → drawable uninit opts run_data) →
  ∃ c, create_visualization uninit prop_cycle data opts = Saved c ∧
       curve_of_line <$> lines c = curves_in_order uninit opts data ∧
       subplots c
       = cell_of (Z.of_nat (size data) `min` max_cols opts)
           <$> seq 0 (size data).
Proof.
  intros Hne Hcols [figsize Hfig] Hall. unfold create_visualization.
  assert (size data ≠ 0) as Hsize by (by apply map_size_non_empty_iff).
  rewrite decide_False by done.
  destruct (layout_positive (Z.of_nat (size data)) (max_cols opts))
    as (Hc & Hr & _); [lia | done |].
  rewrite decide_False by lia. cbv zeta. rewrite Hfig.
  unfold GridSpec. rewrite decide_False by lia. rewrite decide_False by lia.
  set (n_cols := (Z.of_nat (size data) `min` max_cols opts)%Z) in *.
  set (items := imap pair (sorted_items data)).
  destruct (run_each_trace_ok (λ c, curve_of_line <$> lines c)
              (λ item : nat * (string * list SeriesRecord),
                 item.2.2 ≫= curves_of uninit opts item.1)
              (draw_metric uninit (palette prop_cycle) opts n_cols)
              items blank_canvas) as [Hnone Hlines].
  { intros c' [idx [tag recs]] Hitem. apply draw_metric_drawable.
    cbn [fst snd]. intros rd Hrd. apply (Hall tag recs); [|done].
    apply elem_of_sorted_items. unfold items in Hitem.
    apply list_elem_of_lookup in Hitem as [i Hi].
    rewrite list_lookup_imap in Hi.
    destruct (sorted_items data !! i) as [kv|] eqn:Hkv; [|done].
    simpl in Hi. injection Hi as <- <-. by eapply list_elem_of_lookup_2. }
  destruct (draw_all_subplots (palette prop_cycle) opts n_cols data) as [_ Hsubplots].
  fold items in Hsubplots.
  destruct (run_each _ items blank_canvas) as [c e]. cbn [fst snd] in *. subst e.
  exists c. split; [done|]. split; [done|]. by apply Hsubplots.
Qed.

End ComposerMore.

Section ComposerExtras.

Variable uninit : nat → float.

(** [create_visualization] reports that there is nothing to visualize
    exactly when the collection is empty. *)
Theorem create_visualization_nothing prop_cycle
    (data : gmap string (list SeriesRecord)) opts :
  create_visualization uninit prop_cycle data opts = NothingToVisualize ↔ data = ∅.
Proof.
  unfold create_visualization. rewrite <- map_size_empty_iff.
  repeat case_decide; try done.
  destruct (plt_figure _ _ _) as [figsize|e]; [|done].
  destruct (GridSpec _ _) as [e|]; [done|].
  by destruct (run_each _ _ blank_canvas) as [c [e|]].
Qed.

(** With a collection that is not empty and [max_cols = 0] the number
    of rows is a division by zero: [ZeroDivisionError], before any
    subplot. *)
Theorem create_visualization_zero_columns prop_cycle
    (data : gmap string (list SeriesRecord)) opts :
  data ≠ ∅ → max_cols opts = 0%Z →
  create_visualization uninit prop_cycle data opts
  = Raised blank_canvas (ZeroDivisionError "integer division or modulo by zero").
Proof.
  intros Hne Hcols. unfold create_visualization.
  apply map_size_non_empty_iff in Hne.
  rewrite decide_False by done. rewrite Hcols. rewrite decide_True by lia. done.
Qed.

Lemma cell_of_inj (n_cols : Z) : (1 ≤ n_cols)%Z → Inj (=) (=) (cell_of n_cols).
Proof.
  intros Hc i j. unfold cell_of. intros [= Hdiv Hmod].
  pose proof (Z.div_mod (Z.of_nat i) n_cols ltac:(lia)).
  pose proof (Z.div_mod (Z.of_nat j) n_cols ltac:(lia)). nia.
Qed.

(** With at least one column, the subplots are the cells of a grid
    filled row by row: the subplot [idx] is in row [idx // n_cols] and
    column [idx % n_cols], every cell lies within the [n_rows] rows and
    [n_cols] columns of the grid, and no two subplots share a cell. *)
Theorem create_visualization_grid prop_cycle
    (data : gmap string (list SeriesRecord)) opts :
  (1 ≤ max_cols opts)%Z →
  let n_metrics := Z.of_nat (size data) in
  let n_cols := (n_metrics `min` max_cols opts)%Z in
  let n_rows := ((n_metrics + n_cols - 1) `div` n_cols)%Z in
  let cells := cell_of n_cols <$> seq 0 (size data) in
  let outcome := create_visualization uninit prop_cycle data opts in
  subplots (canvas_of outcome) `prefix_of` cells ∧
  (∀ c, outcome = Saved c → subplots c = cells) ∧
  Forall (λ cell, (0 ≤ cell.1 < n_rows)%Z ∧ (0 ≤ cell.2 < n_cols)%Z) cells ∧
  NoDup cells.
Proof.
  intros Hmax n_metrics n_cols n_rows cells outcome.
  destruct (decide (size data = 0)) as [Hzero|Hsize].
  { subst outcome cells. unfold create_visualization. rewrite decide_True by done.
    rewrite Hzero. cbn [canvas_of blank_canvas subplots seq fmap list_fmap].
    split; [done|]. split; [done|]. split; constructor. }
  destruct (layout_positive n_metrics (max_cols opts)) as (Hc & Hr & Hfill & _);
    [unfold n_metrics; lia | done |].
  fold n_cols n_rows in Hc, Hr, Hfill.
  assert (subplots (canvas_of outcome) `prefix_of` cells ∧
          ∀ c, outcome = Saved c → subplots c = cells) as [Hpre Hsaved].
  { subst outcome. unfold create_visualization.
    rewrite decide_False by done. fold n_metrics n_cols.
    rewrite decide_False by lia. fold n_rows.
    assert (subplots blank_canvas `prefix_of` cells) as Hnil by apply prefix_nil.
    destruct (plt_figure _ _ _) as [figsize|e]; cbn [canvas_of]; [|done].
    destruct (GridSpec _ _) as [e|]; cbn [canvas_of]; [done|].
    destruct (draw_all_subplots uninit (palette prop_cycle) opts n_cols data) as [Hp Hf].
    fold cells in Hp, Hf.
    destruct (run_each _ _ blank_canvas) as [c [e|]]; cbn [canvas_of fst snd] in *.
    - split; [done|]. intros c' [=].
    - split; [done|]. intros c' [= <-]. by apply Hf. }
  split; [done|]. split; [done|]. split.
  - apply Forall_fmap, Forall_forall. intros idx Hidx.
    apply elem_of_seq in Hidx. unfold compose, cell_of. cbn [fst snd].
    pose proof (Z.div_mod (Z.of_nat idx) n_cols ltac:(lia)) as Hdm.
    pose proof (Z.mod_pos_bound (Z.of_nat idx) n_cols ltac:(lia)) as Hmod.
    assert (0 ≤ Z.of_nat idx `div` n_cols)%Z as Hdiv by (apply Z.div_pos; lia).
    assert (Z.of_nat idx < n_metrics)%Z as Hlt by (unfold n_metrics; lia).
    clearbody n_rows n_cols n_metrics.
    generalize dependent (Z.of_nat idx `div` n_cols)%Z.
    generalize dependent (Z.of_nat idx `mod` n_cols)%Z.
    intros m Hm q Hq Hq0. split; [|done]. split; [done|]. nia.
  - pose proof (cell_of_inj n_cols Hc) as Hinj.
    apply (NoDup_fmap_2 (cell_of n_cols)). apply NoDup_seq.
Qed.

Lemma drawable_plain opts run_data :
  selected (smooth_method opts) = None →
  length (steps run_data) = length (values run_data) →
  length (walltimes run_data) = length (values run_data) →
  drawable uninit opts run_data.
Proof. intros Hsel Hs Hw. unfold drawable. by rewrite Hsel. Qed.

Lemma drawable_ema opts run_data method :
  selected (smooth_method opts) = Some method → method ≠ "ma" →
  window_converts (smooth_window opts) →
  length (steps run_data) = length (values run_data) →
  length (walltimes run_data) = length (values run_data) →
  drawable uninit opts run_data.
Proof.
  intros Hsel Hm Hwin Hs Hw. unfold drawable. rewrite Hsel.
  split; [done|]. split; [done|].
  destruct (smooth_window opts) as [w|]; [|by exists (values run_data)].
  destruct (decide (w ≤ 1)%Z) as [Hle|Hgt].
  - exists (values run_data). split; [|done]. unfold smooth_values.
    by rewrite decide_True.
  - destruct Hwin as [?|[fw Hfw]]; [lia|].
    rewrite smooth_values_ema by (lia || done). rewrite Hfw. cbn [mbind py_bind].
    eexists. split; [done|]. apply length_ema_spec.
Qed.

Lemma drawable_ma opts run_data :
  selected (smooth_method opts) = Some "ma" →
  match smooth_window opts with
  | None => True
  | Some w =>
    (w ≤ 1)%Z ∨ ((∃ ones, np_ones w = Ok ones) ∧
                 (∃ fw, float_of_int w = Ok fw) ∧
                 (w ≤ Z.of_nat (length (values run_data)))%Z)
  end →
  length (steps run_data) = length (values run_data) →
  length (walltimes run_data) = length (values run_data) →
  drawable uninit opts run_data.
Proof.
  intros Hsel Hwin Hs Hw. unfold drawable. rewrite Hsel.
  split; [done|]. split; [done|].
  destruct (smooth_window opts) as [w|]; [|by exists (values run_data)].
  destruct (decide (w ≤ 1)%Z) as [Hle|Hgt].
  - exists (values run_data). split; [|done]. unfold smooth_values.
    by rewrite decide_True.
  - destruct Hwin as [?|([ones Hones] & [fw Hfw] & Hlen)]; [lia|].
    destruct (smooth_values_ma_length uninit (values run_data) w ones fw)
      as (out & Hout & Hmax); [|lia|done|done|].
    { intros Hnil. rewrite Hnil in Hlen. simpl in Hlen. lia. }
    exists out. split; [done|]. lia.
Qed.

Lemma list_bind_ext_in {A B : Type} (f g : A → list B) (l : list A) :
  (∀ x, x ∈ l → f x = g x) → l ≫= f = l ≫= g.
Proof.
  induction l as [|x l IH]; intros Hfg; [done|].
  rewrite !bind_cons, (Hfg x) by left. f_equal. apply IH.
  intros y Hy. apply Hfg. by right.
Qed.

Lemma list_bind_fmap {A B C : Type} (f : B → C) (g : A → list B) (l : list A) :
  f <$> (l ≫= g) = l ≫= λ x, f <$> g x.
Proof.
  induction l as [|x l IH]; [done|].
  by rewrite !bind_cons, fmap_app, IH.
Qed.

(** The curves of a record that can be drawn have the shapes of the
    record: each has as many values as the record. *)
Lemma shapes_of_curves opts idx run_data :
  drawable uninit opts run_data →
  (λ cv : nat * string * list float, (cv.1.1, cv.1.2, length cv.2))
    <$> curves_of uninit opts idx run_data
  = shapes_of opts idx run_data.
Proof.
  intros (_ & _ & Hsmooth). unfold curves_of, shapes_of, smoothed_of.
  destruct (selected (smooth_method opts)) as [method|]; [|done].
  destruct Hsmooth as (arr & -> & Hlen).
  destruct (show_raw_and_smooth opts); cbn [fmap list_fmap fst snd]; by rewrite Hlen.
Qed.

Lemma shapes_in_order_curves opts (data : gmap string (list SeriesRecord)) :
  (∀ tag recs run_data,
     data !! tag = Some recs → run_data ∈ recs → drawable uninit opts run_data) →
  (λ cv : nat * string * list float, (cv.1.1, cv.1.2, length cv.2))
    <$> curves_in_order uninit opts data
  = shapes_in_order opts data.
Proof.
  intros Hall. unfold curves_in_order, shapes_in_order.
  rewrite list_bind_fmap. apply list_bind_ext_in.
  intros [idx [tag recs]] Hitem. cbn [fst snd].
  rewrite list_bind_fmap. apply list_bind_ext_in.
  intros rd Hrd. apply shapes_of_curves.
  apply (Hall tag recs); [|done].
  apply elem_of_sorted_items.
  apply list_elem_of_lookup in Hitem as [i Hi].
  rewrite list_lookup_imap in Hi.
  destruct (sorted_items data !! i) as [kv|] eqn:Hkv; [|done].
  simpl in Hi. injection Hi as <- <-. by eapply list_elem_of_lookup_2.
Qed.

(** Without smoothing, with at least one column and a figure whose
    size [plt.figure] accepts, a collection whose records have
    sequences of one length is drawn to the end: one curve for each
    record, under the run name and with the raw values, in the subplot
    of its metric. *)
Theorem create_visualization_plain prop_cycle
    (data : gmap string (list SeriesRecord)) opts :
  data ≠ ∅ → (1 ≤ max_cols opts)%Z → figure_accepted opts (size data) →
  selected (smooth_method opts) = None →
  parallel_records data →
  ∃ c, create_visualization uninit prop_cycle data opts = Saved c ∧
       curve_of_line <$> lines c
       = imap pair (sorted_items data) ≫= λ item,
           (λ run_data, (item.1, run_name run_data, values run_data)) <$> item.2.2.
Proof.
  intros Hne Hcols Hfig Hsel Hpar.
  destruct (create_visualization_drawable uninit prop_cycle data opts Hne Hcols Hfig)
    as (c & Hc & Hlines & _).
  { intros tag recs rd Hrecs Hrd. destruct (Hpar tag recs rd Hrecs Hrd).
    by apply drawable_plain. }
  exists c. split; [done|]. rewrite Hlines. unfold curves_in_order.
  apply list_bind_ext; [|done]. intros item.
  unfold curves_of. rewrite Hsel.
  induction (item.2.2) as [|rd rds IH]; [done|].
  by rewrite bind_cons, fmap_cons, IH.
Qed.

(** With a method other than ["ma"], a window that [float] converts
    and a figure whose size [plt.figure] accepts, a collection whose
    records have sequences of one length is drawn to the end: the
    curves of every record, one or two by the mode, in the subplot of
    its metric. *)
Theorem create_visualization_ema_completes prop_cycle
    (data : gmap string (list SeriesRecord)) opts method :
  data ≠ ∅ → (1 ≤ max_cols opts)%Z → figure_accepted opts (size data) →
  selected (smooth_method opts) = Some method → method ≠ "ma" →
  window_converts (smooth_window opts) →
  parallel_records data →
  ∃ c, create_visualization uninit prop_cycle data opts = Saved c ∧
       curve_of_line <$> lines c = curves_in_order uninit opts data.
Proof.
  intros Hne Hcols Hfig Hsel Hm Hwin Hpar.
  destruct (create_visualization_drawable uninit prop_cycle data opts Hne Hcols Hfig)
    as (c & Hc & Hlines & _).
  { intros tag recs rd Hrecs Hrd. destruct (Hpar tag recs rd Hrecs Hrd).
    by apply (drawable_ema opts rd method). }
  by exists c.
Qed.

(** With the moving average, a window that is not longer than any
    record and a figure whose size [plt.figure] accepts, a collection
    whose records have sequences of one length is drawn to the end:
    every curve of every record, one or two by the mode, in the subplot
    of its metric, under its label and with as many values as the
    record has. *)
Theorem create_visualization_ma_completes prop_cycle
    (data : gmap string (list SeriesRecord)) opts :
  data ≠ ∅ → (1 ≤ max_cols opts)%Z → figure_accepted opts (size data) →
  selected (smooth_method opts) = Some "ma" →
  window_fits (smooth_window opts) data →
  parallel_records data →
  ∃ c, create_visualization uninit prop_cycle data opts = Saved c ∧
       shape_of_line <$> lines c = shapes_in_order opts data.
Proof.
  intros Hne Hcols Hfig Hsel Hwin Hpar.
  assert (∀ tag recs run_data,
            data !! tag = Some recs → run_data ∈ recs →
            drawable uninit opts run_data) as Hall.
  { intros tag recs rd Hrecs Hrd. destruct (Hpar tag recs rd Hrecs Hrd).
    apply drawable_ma; try done. unfold window_fits in Hwin.
    destruct (smooth_window opts) as [w|]; [|done].
    destruct Hwin as [?|(Hones & Hfw & Hlen)]; [by left|]. right.
    split; [done|]. split; [done|]. by apply (Hlen tag recs). }
  destruct (create_visualization_drawable uninit prop_cycle data opts
              Hne Hcols Hfig Hall) as (c & Hc & Hlines & _).
  exists c. split; [done|].
  rewrite <- (shapes_in_order_curves opts data Hall), <- Hlines, <- list_fmap_compose.
  done.
Qed.

Lemma create_visualization_color_inv prop_cycle
    (data : gmap string (list SeriesRecord)) opts :
  color_inv (palette prop_cycle)
    (canvas_of (create_visualization uninit prop_cycle data opts)).
Proof.
  unfold create_visualization.
  pose proof (color_inv_blank (palette prop_cycle)) as Hblank.
  repeat case_decide; cbn [canvas_of]; try done.
  destruct (plt_figure _ _ _) as [figsize|e]; cbn [canvas_of]; [|done].
  destruct (GridSpec _ _) as [e|]; cbn [canvas_of]; [done|].
  pose proof (draw_all_spec uninit (palette prop_cycle) opts
                (Z.of_nat (size data) `min` max_cols opts)%Z data) as (Hi & _).
  by destruct (run_each _ _ blank_canvas) as [c1 [e|]].
Qed.

(** However the pass ends, the table of colors holds exactly the runs
    whose records were reached, each with the color resolved for it,
    and the cursor of the palette has moved once for each of them. *)
Theorem create_visualization_color_table prop_cycle
    (data : gmap string (list SeriesRecord)) opts :
  let c := canvas_of (create_visualization uninit prop_cycle data opts) in
  (∀ run col, run_color_map c !! run = Some col ↔ (run, col) ∈ color_log c) ∧
  color_iter c = distinct (color_log c).*1.
Proof.
  intros c. destruct (create_visualization_color_inv prop_cycle data opts)
    as [Hlm Hml Hit _ _]. fold c in Hlm, Hml, Hit.
  split; [|done]. intros run col. split; [|apply Hlm].
  intros Hrun. assert (run ∈ (color_log c).*1) as Hin by (apply Hml; by eexists).
  apply list_elem_of_fmap in Hin as ([run' col'] & -> & Hin).
  pose proof (Hlm _ _ Hin) as Hcol'. cbn [fst] in Hrun.
  by replace col with col' by congruence.
Qed.

End ComposerExtras.

(** * The command *)

Lemma selected_Some smooth_method method :
  selected smooth_method = Some method → smooth_method = Some method ∧ method ≠ "".
Proof.
  destruct smooth_method as [[|ch s]|]; simpl; try done.
  intros [= <-]. done.
Qed.

Section MainFacts.

Variable uninit : nat → float.
Variable prop_cycle : option (gmap string (list string)).
Variable path_exists : string → bool.
Variable os_walk : string → list (string * list string * list string).
Variable resolve : string → list string.
Variable read_events : string → py_result (list (string * py_result (list ScalarEvent))).
Variable repr_list : list string → string.
Variable str_len : nat → string.

(** When no directory that exists holds a file with the marker of
    event files, [main] prints its banner, the warnings for the
    directories that do not exist and the error, and returns: nothing
    is loaded and nothing is drawn. *)
Theorem main_no_event_files args :
  (∀ directory root dirs files file,
     directory ∈ Cli.directories args → path_exists directory = true →
     (root, dirs, files) ∈ os_walk directory → file ∈ files →
     is_event_file file = false) →
  main uninit prop_cycle path_exists os_walk resolve read_events repr_list str_len args
  = (banner repr_list args
       ++ (Cli.directories args ≫= warning_of path_exists)
       ++ ["Error: no TensorBoard event files found"],
     NoEventFiles).
Proof.
  intros Hnone. unfold main.
  pose proof (find_tb_files_mem path_exists os_walk (Cli.directories args)) as Hmem.
  rewrite find_tb_files_closed in *. cbn [fst] in Hmem.
  destruct (Cli.directories args ≫= event_files_below path_exists os_walk)
    as [|path paths].
  - by rewrite <- app_assoc.
  - destruct (proj1 (Hmem path)) as (d & root & dirs & files & file & Hd & Hex & Hw & Hf & Hev & _).
    { apply elem_of_cons. by left. }
    rewrite (Hnone d root dirs files file) in Hev; done.
Qed.

(** When event files are found and none can be opened, [main] ends
    with the error of the empty collection and draws nothing. *)
Theorem main_nothing_loaded args :
  (find_tb_files path_exists os_walk (Cli.directories args)).1 ≠ [] →
  (∀ tb_file,
     tb_file ∈ (find_tb_files path_exists os_walk (Cli.directories args)).1 →
     ∃ e, read_events tb_file = Raise e) →
  let r := main uninit prop_cycle path_exists os_walk resolve read_events
             repr_list str_len args in
  r.2 = NoData ∧ last r.1 = Some "Error: failed to load any data".
Proof.
  intros Hfound Hall. unfold main.
  destruct (find_tb_files path_exists os_walk (Cli.directories args))
    as [tb_files warnings]. cbn [fst] in *.
  destruct tb_files as [|f tb_files]; [done|].
  pose proof (load_tb_data_unreadable resolve read_events (f :: tb_files)
                (Cli.directories args) (Cli.max_step args) Hall) as Hempty.
  destruct (load_tb_data resolve read_events (f :: tb_files) _ _) as [data loading].
  cbn [fst] in Hempty. subst data.
  rewrite decide_True by done. cbn [fst snd]. split; [done|]. by rewrite last_snoc.
Qed.

(** [main] calls [create_visualization] with a collection that is not
    empty only: from [main], it never reports that there is nothing to
    visualize. *)
Theorem main_never_nothing_to_visualize args :
  (main uninit prop_cycle path_exists os_walk resolve read_events repr_list str_len args).2
  ≠ Visualized NothingToVisualize.
Proof.
  unfold main.
  destruct (find_tb_files path_exists os_walk (Cli.directories args))
    as [[|f tb_files] warnings]; [done|].
  destruct (load_tb_data resolve read_events (f :: tb_files) _ _) as [data loading].
  case_decide as Hsize; [done|]. cbn [snd]. intros [= Hviz].
  revert Hviz. unfold create_visualization. rewrite decide_False by done.
  repeat case_decide; try done.
  destruct (plt_figure _ _ _) as [figsize|e]; [|done].
  destruct (GridSpec _ _) as [e|]; [done|].
  by destruct (run_each _ _ blank_canvas) as [c [e|]].
Qed.

(** Unless the moving average is selected, with at least one column,
    a window that [float] converts, and a width and a height of which
    [plt.figure] accepts the figure of the metrics loaded, the drawing
    that [main] starts ends without an exception, whatever the files
    hold: every record that [load_tb_data] stores can be drawn. *)
Theorem main_completes args :
  (1 ≤ Cli.max_cols args)%Z →
  Cli.smooth args ≠ Some "ma" →
  window_converts (Some (Cli.smooth_window args)) →
  figure_accepted (options_of args)
    (size (loaded_data path_exists os_walk resolve read_events args)) →
  match (main uninit prop_cycle path_exists os_walk resolve read_events
           repr_list str_len args).2 with
  | Visualized o => ∃ c, o = Saved c
  | NoEventFiles | NoData => True
  end.
Proof.
  intros Hcols Hsmooth Hwin Hfig. unfold main. unfold loaded_data in Hfig.
  destruct (find_tb_files path_exists os_walk (Cli.directories args))
    as [[|f tb_files] warnings]; [done|]. cbn [fst] in Hfig.
  pose proof (load_tb_data_parallel resolve read_events (f :: tb_files)
                (Cli.directories args) (Cli.max_step args)) as Hpar.
  destruct (load_tb_data resolve read_events (f :: tb_files) _ _) as [data loading].
  cbn [fst] in Hpar, Hfig. case_decide as Hsize; [done|]. cbn [snd].
  destruct (create_visualization_drawable uninit prop_cycle data (options_of args))
    as (c & Hc & _); [by apply map_size_non_empty_iff | done | done | | by exists c].
  intros tag recs rd Hrecs Hrd. destruct (Hpar tag recs rd Hrecs Hrd) as [Hs Hw].
  destruct (selected (smooth_method (options_of args))) as [method|] eqn:Hsel.
  - apply (drawable_ema uninit (options_of args) rd method); try done.
    apply selected_Some in Hsel as [Hsel _]. cbn [options_of smooth_method] in Hsel.
    intros ->. by rewrite Hsel in Hsmooth.
  - by apply drawable_plain.
Qed.

End MainFacts.

(** * The properties above, in the small world *)

Lemma one_metric_nonempty : Disk.one_metric ≠ ∅.
Proof. apply map_non_empty_singleton. Qed.

Lemma one_metric_parallel : parallel_records Disk.one_metric.
Proof.
  intros tag recs rd Hrecs Hrd.
  unfold Disk.one_metric in Hrecs. apply lookup_singleton_Some in Hrecs as [_ <-].
  apply list_elem_of_singleton in Hrd as ->. by split.
Qed.

Lemma load_tb_data_no_empty_metric_witness :
  (load_tb_data Sample.resolve Sample.read_events
     [Sample.run1] ["logs"] (Some 5%Z)).1 !! "loss" = Some [Sample.loss1] ∧
  [Sample.loss1] ≠ [].
Proof.
  split; [vm_compute; reflexivity|].
  apply (load_tb_data_no_empty_metric Sample.resolve Sample.read_events
           [Sample.run1] ["logs"] (Some 5%Z) "loss").
  vm_compute. reflexivity.
Defined.

Lemma load_tb_data_all_unreadable_witness :
  (∀ tb_file, tb_file ∈ [Sample.run2] → ∃ e, Sample.read_events tb_file = Raise e) ∧
  (load_tb_data Sample.resolve Sample.read_events [Sample.run2] ["logs"] None).1 = ∅.
Proof.
  assert (∀ tb_file, tb_file ∈ [Sample.run2] →
            ∃ e, Sample.read_events tb_file = Raise e) as Hall.
  { intros f Hf. apply list_elem_of_singleton in Hf as ->.
    by exists (OtherError "truncated record"). }
  split; [exact Hall|].
  by apply (load_tb_data_all_unreadable Sample.resolve Sample.read_events).
Defined.

Lemma load_tb_data_keeps_every_series_witness :
  Sample.run3 ∈ [Sample.run1; Sample.run3] ∧
  Sample.read_events Sample.run3
  = Ok ([] ++ ("loss", Ok [Sample.event 0 8; Sample.event 1 4; Sample.event 2 2])
            :: [("grad", Raise (OtherError "Key grad was not found"))]) ∧
  first_raise [] = None ∧
  within_bound None [Sample.event 0 8; Sample.event 1 4; Sample.event 2 2] ≠ [] ∧
  stored (load_tb_data Sample.resolve Sample.read_events
            [Sample.run1; Sample.run3] ["logs"] None).1 "loss"
    {| steps := step <$> within_bound None
                  [Sample.event 0 8; Sample.event 1 4; Sample.event 2 2];
       values := value <$> within_bound None
                  [Sample.event 0 8; Sample.event 1 4; Sample.event 2 2];
       walltimes := wall_time <$> within_bound None
                  [Sample.event 0 8; Sample.event 1 4; Sample.event 2 2];
       run_name := compute_run_name Sample.resolve (Sample.resolve <$> ["logs"]) Sample.run3;
       file_path := Sample.run3 |}.
Proof.
  assert (Sample.run3 ∈ [Sample.run1; Sample.run3]) as Hin
    by (apply elem_of_cons; right; apply elem_of_cons; by left).
  split; [exact Hin|]. split; [reflexivity|]. split; [reflexivity|].
  split; [discriminate|].
  apply (load_tb_data_keeps_every_series Sample.resolve Sample.read_events
           [Sample.run1; Sample.run3] ["logs"] None Sample.run3 [] "loss"
           [Sample.event 0 8; Sample.event 1 4; Sample.event 2 2]
           [("grad", Raise (OtherError "Key grad was not found"))]);
    [exact Hin | reflexivity | reflexivity | discriminate].
Defined.

Lemma load_tb_data_bound_beyond_steps_witness :
  (∀ tb_file scalar_tags tag events e,
     tb_file ∈ [Sample.run3] → Sample.read_events tb_file = Ok scalar_tags →
     (tag, Ok events) ∈ scalar_tags → e ∈ events → (step e ≤ 5)%Z) ∧
  load_tb_data Sample.resolve Sample.read_events [Sample.run3] ["logs"] (Some 5%Z)
  = load_tb_data Sample.resolve Sample.read_events [Sample.run3] ["logs"] None.
Proof.
  assert (∀ tb_file scalar_tags tag events e,
     tb_file ∈ [Sample.run3] → Sample.read_events tb_file = Ok scalar_tags →
     (tag, Ok events) ∈ scalar_tags → e ∈ events → (step e ≤ 5)%Z) as Hall.
  { intros f tags tag events e Hf Hread Htag He.
    apply list_elem_of_singleton in Hf as ->.
    change (Sample.read_events Sample.run3)
      with (@Ok (list (string * py_result (list ScalarEvent)))
              [("loss", Ok [Sample.event 0 8; Sample.event 1 4; Sample.event 2 2]);
               ("grad", Raise (OtherError "Key grad was not found"))]) in Hread.
    injection Hread as <-.
    apply elem_of_cons in Htag as [[= -> ->]|Htag].
    - repeat (apply elem_of_cons in He as [->|He]; [simpl; lia|]).
      by apply elem_of_nil in He.
    - apply list_elem_of_singleton in Htag. discriminate. }
  split; [exact Hall|].
  by apply (load_tb_data_bound_beyond_steps Sample.resolve Sample.read_events).
Defined.

Lemma find_tb_files_missing_directory_witness :
  Disk.path_exists "gone" = false ∧
  (find_tb_files Disk.path_exists Disk.os_walk (["logs"] ++ "gone" :: ["logs"])).1
  = (find_tb_files Disk.path_exists Disk.os_walk (["logs"] ++ ["logs"])).1 ∧
  ("Warning: directory does not exist: " +:+ "gone")
  ∈ (find_tb_files Disk.path_exists Disk.os_walk (["logs"] ++ "gone" :: ["logs"])).2.
Proof.
  split; [reflexivity|].
  by apply (find_tb_files_missing_directory Disk.path_exists Disk.os_walk).
Defined.

Lemma find_tb_files_event_names_witness :
  "logs/run1/events.out.tfevents.1"
  ∈ (find_tb_files Disk.path_exists Disk.os_walk ["logs"]).1 ∧
  ∃ dir file, "logs/run1/events.out.tfevents.1" = dir +:+ file ∧
              is_event_file file = true.
Proof.
  assert ("logs/run1/events.out.tfevents.1"
          ∈ (find_tb_files Disk.path_exists Disk.os_walk ["logs"]).1) as Hin.
  { change ((find_tb_files Disk.path_exists Disk.os_walk ["logs"]).1)
      with ["logs/run1/events.out.tfevents.1"; "logs/run2/events.out.tfevents.2";
            "logs/run3/events.out.tfevents.3"].
    apply elem_of_cons. by left. }
  split; [exact Hin|].
  by apply (find_tb_files_event_names Disk.path_exists Disk.os_walk ["logs"]).
Defined.

Lemma create_visualization_zero_columns_witness :
  Disk.one_metric ≠ ∅ ∧ max_cols Disk.no_columns = 0%Z ∧
  create_visualization (λ _, 0%float) None Disk.one_metric Disk.no_columns
  = Raised blank_canvas (ZeroDivisionError "integer division or modulo by zero").
Proof.
  split; [apply one_metric_nonempty|]. split; [reflexivity|].
  apply create_visualization_zero_columns; [apply one_metric_nonempty | reflexivity].
Defined.

Lemma create_visualization_grid_witness :
  (1 ≤ max_cols Disk.plain)%Z ∧
  let n_metrics := Z.of_nat (size Disk.one_metric) in
  let n_cols := (n_metrics `min` max_cols Disk.plain)%Z in
  let n_rows := ((n_metrics + n_cols - 1) `div` n_cols)%Z in
  let cells := cell_of n_cols <$> seq 0 (size Disk.one_metric) in
  let outcome := create_visualization (λ _, 0%float) None Disk.one_metric Disk.plain in
  subplots (canvas_of outcome) `prefix_of` cells ∧
  (∀ c, outcome = Saved c → subplots c = cells) ∧
  Forall (λ cell, (0 ≤ cell.1 < n_rows)%Z ∧ (0 ≤ cell.2 < n_cols)%Z) cells ∧
  NoDup cells.
Proof.
  split; [simpl; lia|].
  apply (create_visualization_grid (λ _, 0%float) None Disk.one_metric Disk.plain).
  simpl. lia.
Defined.

(** [plt.figure] refuses a width below zero and a size that is not
    finite: no subplot is added and no curve drawn. *)
Example create_visualization_figure_refused :
  create_visualization (λ _, 0%float) None Disk.one_metric (Disk.sized (-8, 4)%float)
  = Raised blank_canvas (ValueError "figure size must be positive finite") ∧
  create_visualization (λ _, 0%float) None Disk.one_metric (Disk.sized (8, nan)%float)
  = Raised blank_canvas (ValueError "figure size must be positive finite") ∧
  create_visualization (λ _, 0%float) None Disk.one_metric (Disk.sized (infinity, 4)%float)
  = Raised blank_canvas (ValueError "figure size must be positive finite").
Proof. repeat split; vm_compute; reflexivity. Qed.

Lemma create_visualization_plain_witness :
  Disk.one_metric ≠ ∅ ∧ (1 ≤ max_cols Disk.plain)%Z ∧
  figure_accepted Disk.plain (size Disk.one_metric) ∧
  selected (smooth_method Disk.plain) = None ∧
  parallel_records Disk.one_metric ∧
  ∃ c, create_visualization (λ _, 0%float) None Disk.one_metric Disk.plain = Saved c ∧
       curve_of_line <$> lines c
       = imap pair (sorted_items Disk.one_metric) ≫= λ item,
           (λ run_data, (item.1, run_name run_data, values run_data)) <$> item.2.2.
Proof.
  assert (figure_accepted Disk.plain (size Disk.one_metric)) as Hfig
    by (exists (8, 4)%float; vm_compute; reflexivity).
  split; [apply one_metric_nonempty|]. split; [simpl; lia|]. split; [exact Hfig|].
  split; [reflexivity|]. split; [apply one_metric_parallel|].
  apply create_visualization_plain;
    [apply one_metric_nonempty | simpl; lia | exact Hfig | reflexivity
    | apply one_metric_parallel].
Defined.

Lemma create_visualization_ema_completes_witness :
  Disk.one_metric ≠ ∅ ∧ (1 ≤ max_cols (Disk.smoothing "ema" 10))%Z ∧
  figure_accepted (Disk.smoothing "ema" 10) (size Disk.one_metric) ∧
  selected (smooth_method (Disk.smoothing "ema" 10)) = Some "ema" ∧
  "ema" ≠ "ma" ∧
  window_converts (smooth_window (Disk.smoothing "ema" 10)) ∧
  parallel_records Disk.one_metric ∧
  ∃ c, create_visualization (λ _, 0%float) None Disk.one_metric (Disk.smoothing "ema" 10)
       = Saved c ∧
       curve_of_line <$> lines c
       = curves_in_order (λ _, 0%float) (Disk.smoothing "ema" 10) Disk.one_metric.
Proof.
  assert (figure_accepted (Disk.smoothing "ema" 10) (size Disk.one_metric)) as Hfig
    by (exists (8, 4)%float; vm_compute; reflexivity).
  assert (window_converts (smooth_window (Disk.smoothing "ema" 10))) as Hwin
    by (right; exists 10%float; reflexivity).
  split; [apply one_metric_nonempty|]. split; [simpl; lia|]. split; [exact Hfig|].
  split; [reflexivity|].
  split; [discriminate|]. split; [exact Hwin|]. split; [apply one_metric_parallel|].
  apply (create_visualization_ema_completes (λ _, 0%float) None Disk.one_metric
           (Disk.smoothing "ema" 10) "ema");
    [apply one_metric_nonempty | simpl; lia | exact Hfig | reflexivity | discriminate
    | exact Hwin | apply one_metric_parallel].
Defined.

Lemma create_visualization_ma_completes_witness :
  Disk.one_metric ≠ ∅ ∧ (1 ≤ max_cols (Disk.smoothing "ma" 3))%Z ∧
  figure_accepted (Disk.smoothing "ma" 3) (size Disk.one_metric) ∧
  selected (smooth_method (Disk.smoothing "ma" 3)) = Some "ma" ∧
  window_fits (smooth_window (Disk.smoothing "ma" 3)) Disk.one_metric ∧
  parallel_records Disk.one_metric ∧
  ∃ c, create_visualization (λ _, 0%float) None Disk.one_metric (Disk.smoothing "ma" 3)
       = Saved c ∧
       shape_of_line <$> lines c
       = shapes_in_order (Disk.smoothing "ma" 3) Disk.one_metric.
Proof.
  assert (figure_accepted (Disk.smoothing "ma" 3) (size Disk.one_metric)) as Hfig
    by (exists (8, 4)%float; vm_compute; reflexivity).
  assert (window_fits (smooth_window (Disk.smoothing "ma" 3)) Disk.one_metric) as Hwin.
  { right. split; [eexists; reflexivity|]. split; [exists 3%float; reflexivity|].
    intros tag recs rd Hrecs Hrd.
    unfold Disk.one_metric in Hrecs. apply lookup_singleton_Some in Hrecs as [_ <-].
    apply list_elem_of_singleton in Hrd as ->. simpl. lia. }
  split; [apply one_metric_nonempty|]. split; [simpl; lia|]. split; [exact Hfig|].
  split; [reflexivity|].
  split; [exact Hwin|]. split; [apply one_metric_parallel|].
  apply (create_visualization_ma_completes (λ _, 0%float) None Disk.one_metric
           (Disk.smoothing "ma" 3));
    [apply one_metric_nonempty | simpl; lia | exact Hfig | reflexivity
    | exact Hwin | apply one_metric_parallel].
Defined.

Lemma main_no_event_files_witness :
  (∀ directory root dirs files file,
     directory ∈ Cli.directories (Disk.args ["gone"] None) →
     Disk.path_exists directory = true →
     (root, dirs, files) ∈ Disk.os_walk directory → file ∈ files →
     is_event_file file = false) ∧
  main (λ _, 0%float) None Disk.path_exists Disk.os_walk Sample.resolve
    Sample.read_events Disk.repr_list Disk.str_len (Disk.args ["gone"] None)
  = (banner Disk.repr_list (Disk.args ["gone"] None)
       ++ (Cli.directories (Disk.args ["gone"] None) ≫= warning_of Disk.path_exists)
       ++ ["Error: no TensorBoard event files found"],
     NoEventFiles).
Proof.
  assert (∀ directory root dirs files file,
     directory ∈ Cli.directories (Disk.args ["gone"] None) →
     Disk.path_exists directory = true →
     (root, dirs, files) ∈ Disk.os_walk directory → file ∈ files →
     is_event_file file = false) as Hnone.
  { intros d root dirs files file Hd Hex. simpl in Hd.
    apply list_elem_of_singleton in Hd as ->. discriminate. }
  split; [exact Hnone|]. by apply main_no_event_files.
Defined.

Lemma main_nothing_loaded_witness :
  (find_tb_files Disk.path_exists Disk.os_walk
     (Cli.directories (Disk.args ["logs"] None))).1 ≠ [] ∧
  (∀ tb_file,
     tb_file ∈ (find_tb_files Disk.path_exists Disk.os_walk
                  (Cli.directories (Disk.args ["logs"] None))).1 →
     ∃ e, Disk.unreadable tb_file = Raise e) ∧
  let r := main (λ _, 0%float) None Disk.path_exists Disk.os_walk Sample.resolve
             Disk.unreadable Disk.repr_list Disk.str_len (Disk.args ["logs"] None) in
  r.2 = NoData ∧ last r.1 = Some "Error: failed to load any data".
Proof.
  assert (∀ tb_file,
     tb_file ∈ (find_tb_files Disk.path_exists Disk.os_walk
                  (Cli.directories (Disk.args ["logs"] None))).1 →
     ∃ e, Disk.unreadable tb_file = Raise e) as Hall
    by (intros f _; by eexists).
  split; [discriminate|]. split; [exact Hall|].
  apply (main_nothing_loaded (λ _, 0%float) None Disk.path_exists Disk.os_walk
           Sample.resolve Disk.unreadable Disk.repr_list Disk.str_len
           (Disk.args ["logs"] None)); [discriminate | exact Hall].
Defined.

Lemma main_completes_witness :
  (1 ≤ Cli.max_cols (Disk.args ["logs"; "gone"] (Some "ema")))%Z ∧
  Cli.smooth (Disk.args ["logs"; "gone"] (Some "ema")) ≠ Some "ma" ∧
  window_converts (Some (Cli.smooth_window (Disk.args ["logs"; "gone"] (Some "ema")))) ∧
  figure_accepted (options_of (Disk.args ["logs"; "gone"] (Some "ema")))
    (size (loaded_data Disk.path_exists Disk.os_walk Sample.resolve Sample.read_events
             (Disk.args ["logs"; "gone"] (Some "ema")))) ∧
  match (main (λ _, 0%float) None Disk.path_exists Disk.os_walk Sample.resolve
           Sample.read_events Disk.repr_list Disk.str_len
           (Disk.args ["logs"; "gone"] (Some "ema"))).2 with
  | Visualized o => ∃ c, o = Saved c
  | NoEventFiles | NoData => True
  end.
Proof.
  assert (window_converts
            (Some (Cli.smooth_window (Disk.args ["logs"; "gone"] (Some "ema"))))) as Hwin
    by (right; exists 10%float; reflexivity).
  assert (figure_accepted (options_of (Disk.args ["logs"; "gone"] (Some "ema")))
            (size (loaded_data Disk.path_exists Disk.os_walk Sample.resolve
                     Sample.read_events (Disk.args ["logs"; "gone"] (Some "ema")))))
    as Hfig by (exists (16, 4)%float; vm_compute; reflexivity).
  split; [simpl; lia|]. split; [discriminate|]. split; [exact Hwin|].
  split; [exact Hfig|].
  apply (main_completes (λ _, 0%float) None Disk.path_exists Disk.os_walk
           Sample.resolve Sample.read_events Disk.repr_list Disk.str_len
           (Disk.args ["logs"; "gone"] (Some "ema")));
    [simpl; lia | discriminate | exact Hwin | exact Hfig].
Defined.

Lemma x_data_of_walltime_witness :
  finite_float 100%float ∧
  x_data_of "walltime" [0; 1; 2]%Z (100 :: [160; 220])%float
  = if decide ("walltime" = "walltime")
    then Hours (0%float :: ((λ w, (w - 100) / 3600)%float <$> [160; 220]%float))
    else Steps [0; 1; 2]%Z.
Proof.
  assert (finite_float 100%float) as Hfin by exact I.
  split; [exact Hfin|]. by apply x_data_of_walltime.
Defined.
